(** * An event dispatcher with snapshots and retry

    Shallow embedding of the Go package [event_dispatcher]
    (pkg/event_dispatcher/event_dispatcher.go) together with the two small
    packages it imports, [action] and [event], and of the fixtures of its
    test file.

    Modelling choices, all of them read off the source:

    - Every public method takes [d.mu] on entry and releases it on return, so
      the public operations are atomic with respect to each other; a
      dispatcher is modelled as a value passed from one operation to the next
      and the mutex itself is left out.
    - An action's [Do] is an arbitrary Go closure: it may read and write
      state outside the dispatcher (the test file's [straightCheckErr] is such
      a variable).  That state is the type [World]; [Do] takes a world and
      returns a world.  [time.Now()] reads the world too.
    - [map[string]interface{}] is a reference that may be nil, hence
      [option (gmap string Value)].  Actions are taken not to write to the
      event they are handed.
    - An action's [Do] is taken to return: no panic, no call back into the
      dispatcher (which would block on the mutex).
    - Slices are modelled as lists.  That this loses nothing is checked
      against a second embedding that keeps the arrays in a heap and the
      slices as views of them, with [append] writing in place when the
      capacity allows: [HandleEvent] copies the registry
      ([append(d.actions[:0:0], d.actions...)]) before it plans a job, so the
      array [RemoveAction] shifts in place is never the array a snapshot's
      [actionsToProcess] points into (lemma [sd_run_New]).
    - Go's [int] is taken to be 64 bits wide; [currentJobId++] wraps.
    - [d.snapshots[jobId].Success] on a key that is not in the map
      dereferences a nil pointer; the operations that can reach it return
      [option], with [None] for that run-time panic.
    - To state which actions an execution attempt invoked, the engine also
      returns the list of actions whose [Do] it called, in call order. *)

From stdpp Require Import base gmap list strings.
From Stdlib Require Import ZArith Lia.

(** ** Machine integers *)

Definition int_min : Z := (- 2 ^ 63)%Z.
Definition int_max : Z := (2 ^ 63 - 1)%Z.

(** Two's complement wrap-around of a 64-bit signed integer. *)
Definition wrap_int (z : Z) : Z := ((z + 2 ^ 63) `mod` 2 ^ 64 - 2 ^ 63)%Z.

(** ** Errors

    [ErrorInvalidJobId] and [ErrorSucceededJobRetryCall] are the package's
    two sentinel values; every other error the package makes comes from
    [fmt.Errorf] and is known by its message. *)

Inductive error : Type :=
  | ErrorInvalidJobId
  | ErrorSucceededJobRetryCall
  | Errorf (msg : string).

(** [err.Error()] *)
Definition error_msg (e : error) : string :=
  match e with
  | ErrorInvalidJobId => "invalid job id"
  | ErrorSucceededJobRetryCall => "retry called for a successfully completed job"
  | Errorf msg => msg
  end.

(** [time.Now().String()], read off the world. *)
Class Clock (World : Type) := time_Now : World → string.

Section Dispatcher.

(** [interface{}], [context.Context] and the state the actions live in. *)
Variables (Value Ctx World : Type).
Context {clock : Clock World}.

(** [map[string]interface{}]; [None] is the nil map. *)
Definition GoMap : Type := option (gmap string Value).

(** package event: [type Event map[string]interface{}] *)
Definition Event : Type := GoMap.

(** package action: [type Action struct] *)
Record Action : Type := mkAction {
  Name : string;
  Do : Ctx → GoMap → World → GoMap * option error * World
}.

(** [type actionResult struct] *)
Record actionResult : Type := mkActionResult {
  result_Name : string;
  Input : GoMap;
  Output : GoMap;
  Timestamp : string
}.

(** [type snapshot struct] *)
Record snapshot : Type := mkSnapshot {
  Id : Z;
  snapshot_Event : Event;
  ActionsResults : list actionResult;
  snapshot_Context : Ctx;
  Success : bool;
  actionsToProcess : list Action
}.

(** [type EventDispatcher struct], without the mutex. *)
Record EventDispatcher : Type := mkEventDispatcher {
  actions : list Action;
  currentJobId : Z;
  snapshots : gmap Z snapshot
}.

Definition NewEventDispatcher : EventDispatcher :=
  {| actions := []; currentJobId := 0; snapshots := ∅ |}.

(** *** The registry *)

(** The [for ... range d.actions] loop of [AddAction]: is there an action
    with this name? *)
Fixpoint has_name (n : string) (l : list Action) : bool :=
  match l with
  | [] => false
  | a :: l' => if String.eqb n (Name a) then true else has_name n l'
  end.

Definition AddAction (d : EventDispatcher) (act : Action)
  : option error * EventDispatcher :=
  if has_name (Name act) (actions d)
  then (Some (Errorf ("action with name " +:+ Name act +:+ " already exists")), d)
  else (None,
        {| actions := actions d ++ [act];
           currentJobId := currentJobId d;
           snapshots := snapshots d |}).

(** The loop of [RemoveAction]: the index of the first action with this
    name. *)
Fixpoint index_of_name (n : string) (l : list Action) : option nat :=
  match l with
  | [] => None
  | a :: l' =>
      if String.eqb n (Name a) then Some 0
      else S <$> index_of_name n l'
  end.

(** [append(d.actions[:idx], d.actions[idx+1:]...)] *)
Definition RemoveAction (d : EventDispatcher) (act : Action)
  : option error * EventDispatcher :=
  match index_of_name (Name act) (actions d) with
  | Some idx =>
      (None,
       {| actions := take idx (actions d) ++ drop (S idx) (actions d);
          currentJobId := currentJobId d;
          snapshots := snapshots d |})
  | None => (Some (Errorf ("action " +:+ Name act +:+ " doesn't exist")), d)
  end.

(** *** The execution engine *)

(** What one pass of the loop of [handleEventByActions] leaves behind. *)
Record attempt : Type := mkAttempt {
  att_err : option error;
  att_results : list actionResult;
  att_pending : list Action;
  att_world : World;
  att_calls : list Action
}.

(** The [for] loop of [handleEventByActions]: [pending] is
    [result.actionsToProcess], [results] is [result.ActionsResults]. *)
Fixpoint run_actions (ctx : Ctx) (ev : Event) (pending : list Action)
    (results : list actionResult) (w : World) : attempt :=
  match pending with
  | [] => mkAttempt None results [] w []
  | action :: rest =>
      let '(output, err, w') := Do action ctx ev w in
      match err with
      | Some e =>
          mkAttempt
            (Some (Errorf (Name action +:+ " action failed: " +:+ error_msg e)))
            results pending w' [action]
      | None =>
          let r := run_actions ctx ev rest
                     (results ++ [mkActionResult (Name action) ev output (time_Now w')])
                     w' in
          mkAttempt (att_err r) (att_results r) (att_pending r) (att_world r)
                    (action :: att_calls r)
      end
  end.

(** The outcome of a call that runs actions: the returned error, the
    dispatcher and the world afterwards, and the actions called. *)
Record outcome : Type := mkOutcome {
  out_err : option error;
  out_disp : EventDispatcher;
  out_world : World;
  out_calls : list Action
}.

(** A fresh [snapshot] is made on every call, filled in by the loop, and
    stored under [jobId] by the deferred function whichever way the loop
    ends. *)
Definition handleEventByActions (d : EventDispatcher) (ctx : Ctx) (ev : Event)
    (acts : list Action) (jobId : Z) (w : World) : outcome :=
  let r := run_actions ctx ev acts [] w in
  let result :=
    {| Id := jobId;
       snapshot_Event := ev;
       ActionsResults := att_results r;
       snapshot_Context := ctx;
       Success := match att_err r with None => true | Some _ => false end;
       actionsToProcess := att_pending r |} in
  mkOutcome
    (att_err r)
    {| actions := actions d;
       currentJobId := currentJobId d;
       snapshots := <[jobId := result]> (snapshots d) |}
    (att_world r)
    (att_calls r).

(** What an outcome says about jobs: everything but the registry. *)
Definition job_view (o : outcome)
  : option error * gmap Z snapshot * World * list Action :=
  (out_err o, snapshots (out_disp o), out_world o, out_calls o).

(** *** The public operations that run actions *)

Definition HandleEvent (d : EventDispatcher) (ctx : Ctx) (ev : Event) (w : World)
  : Z * outcome :=
  let acts := actions d in
  let jobId := currentJobId d in
  let d1 :=
    {| actions := actions d;
       currentJobId := wrap_int (currentJobId d + 1);
       snapshots := snapshots d |} in
  (jobId, handleEventByActions d1 ctx ev acts jobId w).

(** [None] is the nil-pointer panic of [d.snapshots[jobId].Success]. *)
Definition validateRetryJobId (d : EventDispatcher) (jobId : Z)
  : option (option error) :=
  if (Z.of_nat (size (snapshots d)) <=? jobId)%Z || (jobId <? 0)%Z
  then Some (Some ErrorInvalidJobId)
  else
    match snapshots d !! jobId with
    | None => None
    | Some s =>
        if Success s then Some (Some ErrorSucceededJobRetryCall) else Some None
    end.

Definition RetryJob (d : EventDispatcher) (jobId : Z) (w : World)
  : option outcome :=
  match validateRetryJobId d jobId with
  | None => None
  | Some (Some err) => Some (mkOutcome (Some err) d w [])
  | Some None =>
      match snapshots d !! jobId with
      | None => None
      | Some storedSnapshot =>
          Some (handleEventByActions d (snapshot_Context storedSnapshot)
                  (snapshot_Event storedSnapshot)
                  (actionsToProcess storedSnapshot) jobId w)
      end
  end.

(** *** Sequences of public operations

    A caller's history is a list of calls.  Between two calls the caller
    may change the world the actions see (the test file does so with
    [setStraightCheckErr]); [OpWorld] stands for that. *)

Inductive op : Type :=
  | OpAddAction (act : Action)
  | OpRemoveAction (act : Action)
  | OpHandleEvent (ctx : Ctx) (ev : Event)
  | OpRetryJob (jobId : Z)
  | OpWorld (f : World → World).

(** What a call hands back to its caller. *)
Inductive reply : Type :=
  | ReplyError (err : option error)
  | ReplyJob (jobId : Z) (err : option error)
  | ReplyNothing.

Definition step (o : op) (d : EventDispatcher) (w : World)
  : option (reply * EventDispatcher * World * list Action) :=
  match o with
  | OpAddAction act =>
      let '(err, d') := AddAction d act in Some (ReplyError err, d', w, [])
  | OpRemoveAction act =>
      let '(err, d') := RemoveAction d act in Some (ReplyError err, d', w, [])
  | OpHandleEvent ctx ev =>
      let '(jobId, out) := HandleEvent d ctx ev w in
      Some (ReplyJob jobId (out_err out), out_disp out, out_world out, out_calls out)
  | OpRetryJob jobId =>
      match RetryJob d jobId w with
      | None => None
      | Some out =>
          Some (ReplyError (out_err out), out_disp out, out_world out, out_calls out)
      end
  | OpWorld f => Some (ReplyNothing, d, f w, [])
  end.

(** Runs a history; [None] if some call panics. *)
Fixpoint run (ops : list op) (d : EventDispatcher) (w : World)
  : option (list reply * EventDispatcher * World) :=
  match ops with
  | [] => Some ([], d, w)
  | o :: ops' =>
      match step o d w with
      | None => None
      | Some (r, d', w', _) =>
          match run ops' d' w' with
          | None => None
          | Some (rs, d'', w'') => Some (r :: rs, d'', w'')
          end
      end
  end.

(** The job ids a history's [HandleEvent] calls returned, in call order. *)
Fixpoint job_ids (rs : list reply) : list Z :=
  match rs with
  | [] => []
  | ReplyJob jobId _ :: rs' => jobId :: job_ids rs'
  | _ :: rs' => job_ids rs'
  end.

(** The number of [HandleEvent] calls of a history. *)
Fixpoint handle_count (ops : list op) : nat :=
  match ops with
  | [] => 0
  | OpHandleEvent _ _ :: ops' => S (handle_count ops')
  | _ :: ops' => handle_count ops'
  end.

(** A call that only changes the registry. *)
Definition registry_op (o : op) : bool :=
  match o with
  | OpAddAction _ | OpRemoveAction _ => true
  | _ => false
  end.

(** *** Vocabulary of the specification *)

(** The action succeeds (returns a nil error) when called in world [w]. *)
Definition succeeds (ctx : Ctx) (ev : Event) (a : Action) (w : World) : Prop :=
  (Do a ctx ev w).1.2 = None.

Definition fails (ctx : Ctx) (ev : Event) (a : Action) (w : World) : Prop :=
  (Do a ctx ev w).1.2 ≠ None.

(** The world after calling the actions of [l] one after the other. *)
Fixpoint world_after (ctx : Ctx) (ev : Event) (l : list Action) (w : World) : World :=
  match l with
  | [] => w
  | a :: l' => world_after ctx ev l' (Do a ctx ev w).2
  end.

(** In an attempt over [acts] started in world [w], the [k]-th action
    (counting from 1) fails: the [k - 1] actions before it succeed, each in
    the world its predecessors left, and the [k]-th does not. *)
Definition kth_fails (ctx : Ctx) (ev : Event) (acts : list Action) (w : World)
    (k : nat) (a : Action) : Prop :=
  (0 < k)%nat ∧ acts !! (k - 1)%nat = Some a ∧
  (∀ i b, (i < k - 1)%nat → acts !! i = Some b →
          succeeds ctx ev b (world_after ctx ev (take i acts) w)) ∧
  fails ctx ev a (world_after ctx ev (take (k - 1) acts) w).

(** Every action of the attempt succeeds. *)
Definition all_succeed (ctx : Ctx) (ev : Event) (acts : list Action) (w : World) : Prop :=
  ∀ i b, acts !! i = Some b →
         succeeds ctx ev b (world_after ctx ev (take i acts) w).

(** The engine is entered from two places: [HandleEvent] (the original
    dispatch, over a copy of the registry) and [RetryJob] once
    [validateRetryJobId] has let the job through (over the pending list of
    the stored snapshot, with its context and event). *)
Inductive execution_attempt (d : EventDispatcher) (w : World)
    : Ctx → Event → list Action → Z → outcome → Prop :=
  | attempt_dispatch ctx ev :
      execution_attempt d w ctx ev (actions d)
        (HandleEvent d ctx ev w).1 (HandleEvent d ctx ev w).2
  | attempt_retry jobId s out :
      snapshots d !! jobId = Some s →
      validateRetryJobId d jobId = Some None →
      RetryJob d jobId w = Some out →
      execution_attempt d w (snapshot_Context s) (snapshot_Event s)
        (actionsToProcess s) jobId out.

(** How a later snapshot [s'] of a job relates to an earlier one [s]: the
    event and the context are the same, the pending list is a final part of
    the earlier one, and nothing at all has changed if the earlier one was
    successful. *)
Definition job_continues (s s' : snapshot) : Prop :=
  snapshot_Event s' = snapshot_Event s ∧
  snapshot_Context s' = snapshot_Context s ∧
  actionsToProcess s' `suffix_of` actionsToProcess s ∧
  (Success s = true → s' = s).

(** The job ids [0 .. currentJobId - 1] are exactly the keys of the
    snapshot store, and the counter has not left the range of [int]. *)
Definition wf (d : EventDispatcher) : Prop :=
  (0 ≤ currentJobId d ≤ int_max)%Z ∧
  dom (snapshots d) = list_to_set (C := gset Z) (seqZ 0 (currentJobId d)).

(** The dispatchers a caller can get: those a history of calls, with
    fewer than [2 ^ 63] calls of [HandleEvent], leads to from a new one. *)
Definition reachable (d : EventDispatcher) : Prop :=
  ∃ ops w0 rs w,
    (Z.of_nat (handle_count ops) ≤ int_max)%Z ∧
    run ops NewEventDispatcher w0 = Some (rs, d, w).

End Dispatcher.

Arguments mkAction {Value Ctx World}.
Arguments Name {Value Ctx World}.
Arguments Do {Value Ctx World}.
Arguments mkActionResult {Value}.
Arguments result_Name {Value}.
Arguments Input {Value}.
Arguments Output {Value}.
Arguments Timestamp {Value}.
Arguments mkSnapshot {Value Ctx World}.
Arguments Id {Value Ctx World}.
Arguments snapshot_Event {Value Ctx World}.
Arguments ActionsResults {Value Ctx World}.
Arguments snapshot_Context {Value Ctx World}.
Arguments Success {Value Ctx World}.
Arguments actionsToProcess {Value Ctx World}.
Arguments mkEventDispatcher {Value Ctx World}.
Arguments actions {Value Ctx World}.
Arguments currentJobId {Value Ctx World}.
Arguments snapshots {Value Ctx World}.
Arguments has_name {Value Ctx World}.
Arguments AddAction {Value Ctx World}.
Arguments index_of_name {Value Ctx World}.
Arguments RemoveAction {Value Ctx World}.
Arguments mkAttempt {Value Ctx World}.
Arguments att_err {Value Ctx World}.
Arguments att_results {Value Ctx World}.
Arguments att_pending {Value Ctx World}.
Arguments att_world {Value Ctx World}.
Arguments att_calls {Value Ctx World}.
Arguments run_actions {Value Ctx World clock}.
Arguments mkOutcome {Value Ctx World}.
Arguments out_err {Value Ctx World}.
Arguments out_disp {Value Ctx World}.
Arguments out_world {Value Ctx World}.
Arguments out_calls {Value Ctx World}.
Arguments job_view {Value Ctx World}.
Arguments handleEventByActions {Value Ctx World clock}.
Arguments HandleEvent {Value Ctx World clock}.
Arguments validateRetryJobId {Value Ctx World}.
Arguments RetryJob {Value Ctx World clock}.
Arguments OpAddAction {Value Ctx World}.
Arguments OpRemoveAction {Value Ctx World}.
Arguments OpHandleEvent {Value Ctx World}.
Arguments OpRetryJob {Value Ctx World}.
Arguments OpWorld {Value Ctx World}.
Arguments step {Value Ctx World clock}.
Arguments run {Value Ctx World clock}.
Arguments handle_count {Value Ctx World}.
Arguments registry_op {Value Ctx World}.
Arguments succeeds {Value Ctx World}.
Arguments fails {Value Ctx World}.
Arguments world_after {Value Ctx World}.
Arguments kth_fails {Value Ctx World}.
Arguments all_succeed {Value Ctx World}.
Arguments execution_attempt {Value Ctx World clock}.
Arguments job_continues {Value Ctx World}.
Arguments wf {Value Ctx World}.
Arguments reachable {Value Ctx World clock}.

(** ** The dispatcher over slices

    The registry [d.actions] and a snapshot's [actionsToProcess] are Go
    slices: views of arrays that live in memory, and [append] may write
    into the array its first argument points to.  The definitions below
    keep the arrays in a heap and the slices as views, as the source has
    them, so that the list model above can be checked against them. *)

(** A slice: the array it points into, the position of its first element
    in that array, its length and its capacity. *)
Record slice : Type := mkSlice {
  sl_array : nat;
  sl_off : nat;
  sl_len : nat;
  sl_cap : nat
}.

(** [s[i:j]], for [i ≤ j ≤ cap(s)]. *)
Definition reslice (s : slice) (i j : nat) : slice :=
  {| sl_array := sl_array s;
     sl_off := sl_off s + i;
     sl_len := j - i;
     sl_cap := sl_cap s - i |}.

(** [s[i:j:k]], for [i ≤ j ≤ k ≤ cap(s)]. *)
Definition reslice3 (s : slice) (i j k : nat) : slice :=
  {| sl_array := sl_array s;
     sl_off := sl_off s + i;
     sl_len := j - i;
     sl_cap := k - i |}.

(** A slice [t] that [append] on [s] cannot disturb: it is empty, or it
    points into an allocated array other than the one [s] points into. *)
Definition apart (next : nat) (s t : slice) : Prop :=
  sl_len t = 0%nat ∨ (sl_array t ≠ sl_array s ∧ (sl_array t < next)%nat).

Section Slices.

Variable A : Type.

(** The zero value of the element type, which fills the cells of a new
    array beyond the length of the slice, and the capacity [append] picks
    for a new array from the old capacity and the length it needs. *)
Variable zero : A.
Variable grow : nat → nat → nat.

(** The elements of a slice. *)
Definition read (h : gmap nat (list A)) (s : slice) : list A :=
  take (sl_len s) (drop (sl_off s) (default [] (h !! sl_array s))).

(** An array with [xs] written over its cells from position [pos] on. *)
Definition write_at (a : list A) (pos : nat) (xs : list A) : list A :=
  take pos a ++ xs ++ drop (pos + length xs) a.

(** [append(s, xs...)]: in place, behind the elements of [s], when the
    capacity of [s] allows; else into a new array, allocated at address
    [next], that receives the elements of [s] and then [xs]. *)
Definition append (h : gmap nat (list A)) (next : nat) (s : slice) (xs : list A)
  : gmap nat (list A) * nat * slice :=
  if (sl_len s + length xs <=? sl_cap s)%nat
  then
    (alter (λ a, write_at a (sl_off s + sl_len s) xs) (sl_array s) h,
     next,
     {| sl_array := sl_array s;
        sl_off := sl_off s;
        sl_len := sl_len s + length xs;
        sl_cap := sl_cap s |})
  else
    let c := grow (sl_cap s) (sl_len s + length xs) in
    (<[next := read h s ++ xs ++ replicate (c - (sl_len s + length xs)) zero]> h,
     S next,
     {| sl_array := next;
        sl_off := 0;
        sl_len := sl_len s + length xs;
        sl_cap := c |}).

End Slices.

Arguments read {A}.
Arguments write_at {A}.
Arguments append {A}.

Section SliceDispatcher.

Variables (Value Ctx World : Type).
Context {clock : Clock World}.
Variable zero : Action Value Ctx World.
Variable grow : nat → nat → nat.

(** [type snapshot struct], with [actionsToProcess] as a slice. *)
Record slice_snapshot : Type := mkSliceSnapshot {
  ss_Id : Z;
  ss_Event : Event Value;
  ss_ActionsResults : list (actionResult Value);
  ss_Context : Ctx;
  ss_Success : bool;
  ss_actionsToProcess : slice
}.

(** [type EventDispatcher struct], with the memory its slices point into
    and the address of the next allocation. *)
Record slice_dispatcher : Type := mkSliceDispatcher {
  sd_heap : gmap nat (list (Action Value Ctx World));
  sd_next : nat;
  sd_actions : slice;
  sd_currentJobId : Z;
  sd_snapshots : gmap Z slice_snapshot
}.

(** [make([]action.Action, 0)] allocates an array of no cells. *)
Definition sd_New : slice_dispatcher :=
  {| sd_heap := {[ 0%nat := [] ]};
     sd_next := 1;
     sd_actions := mkSlice 0 0 0 0;
     sd_currentJobId := 0;
     sd_snapshots := ∅ |}.

(** [d.actions = append(d.actions, act)] *)
Definition sd_AddAction (sd : slice_dispatcher) (act : Action Value Ctx World)
  : option error * slice_dispatcher :=
  if has_name (Name act) (read (sd_heap sd) (sd_actions sd))
  then (Some (Errorf ("action with name " +:+ Name act +:+ " already exists")), sd)
  else
    let '(h, next, s) := append zero grow (sd_heap sd) (sd_next sd) (sd_actions sd) [act] in
    (None,
     {| sd_heap := h; sd_next := next; sd_actions := s;
        sd_currentJobId := sd_currentJobId sd;
        sd_snapshots := sd_snapshots sd |}).

(** [d.actions = append(d.actions[:idx], d.actions[idx+1:]...)]: the
    elements behind [idx] are read, then written one cell down in the
    array of [d.actions] itself. *)
Definition sd_RemoveAction (sd : slice_dispatcher) (act : Action Value Ctx World)
  : option error * slice_dispatcher :=
  match index_of_name (Name act) (read (sd_heap sd) (sd_actions sd)) with
  | Some idx =>
      let '(h, next, s) :=
        append zero grow (sd_heap sd) (sd_next sd)
          (reslice (sd_actions sd) 0 idx)
          (read (sd_heap sd) (reslice (sd_actions sd) (S idx) (sl_len (sd_actions sd)))) in
      (None,
       {| sd_heap := h; sd_next := next; sd_actions := s;
          sd_currentJobId := sd_currentJobId sd;
          sd_snapshots := sd_snapshots sd |})
  | None => (Some (Errorf ("action " +:+ Name act +:+ " doesn't exist")), sd)
  end.

(** [handleEventByActions] over a slice.  The loop reads the element at
    the front of [result.actionsToProcess] and steps with
    [result.actionsToProcess[1:]]; it writes to no array.  After as many
    steps as there are results the slice is [acts[k:]]. *)
Definition sd_handleEventByActions (sd : slice_dispatcher) (ctx : Ctx)
    (ev : Event Value) (acts : slice) (jobId : Z) (w : World)
  : option error * slice_dispatcher * World * list (Action Value Ctx World) :=
  let r := run_actions ctx ev (read (sd_heap sd) acts) [] w in
  let k := length (att_results r) in
  let result :=
    {| ss_Id := jobId;
       ss_Event := ev;
       ss_ActionsResults := att_results r;
       ss_Context := ctx;
       ss_Success := match att_err r with None => true | Some _ => false end;
       ss_actionsToProcess := reslice acts k (sl_len acts) |} in
  (att_err r,
   {| sd_heap := sd_heap sd; sd_next := sd_next sd; sd_actions := sd_actions sd;
      sd_currentJobId := sd_currentJobId sd;
      sd_snapshots := <[jobId := result]> (sd_snapshots sd) |},
   att_world r,
   att_calls r).

(** [actions := append(d.actions[:0:0], d.actions...)]: the slice
    [d.actions[:0:0]] has no capacity, so [append] copies the registry into
    a new array, unless the registry is empty. *)
Definition sd_HandleEvent (sd : slice_dispatcher) (ctx : Ctx) (ev : Event Value)
    (w : World)
  : Z * (option error * slice_dispatcher * World * list (Action Value Ctx World)) :=
  let '(h, next, acts) :=
    append zero grow (sd_heap sd) (sd_next sd)
      (reslice3 (sd_actions sd) 0 0 0)
      (read (sd_heap sd) (sd_actions sd)) in
  let jobId := sd_currentJobId sd in
  let sd1 :=
    {| sd_heap := h; sd_next := next; sd_actions := sd_actions sd;
       sd_currentJobId := wrap_int (sd_currentJobId sd + 1);
       sd_snapshots := sd_snapshots sd |} in
  (jobId, sd_handleEventByActions sd1 ctx ev acts jobId w).

Definition sd_validateRetryJobId (sd : slice_dispatcher) (jobId : Z)
  : option (option error) :=
  if (Z.of_nat (size (sd_snapshots sd)) <=? jobId)%Z || (jobId <? 0)%Z
  then Some (Some ErrorInvalidJobId)
  else
    match sd_snapshots sd !! jobId with
    | None => None
    | Some s =>
        if ss_Success s then Some (Some ErrorSucceededJobRetryCall) else Some None
    end.

Definition sd_RetryJob (sd : slice_dispatcher) (jobId : Z) (w : World)
  : option (option error * slice_dispatcher * World * list (Action Value Ctx World)) :=
  match sd_validateRetryJobId sd jobId with
  | None => None
  | Some (Some err) => Some (Some err, sd, w, [])
  | Some None =>
      match sd_snapshots sd !! jobId with
      | None => None
      | Some storedSnapshot =>
          Some (sd_handleEventByActions sd (ss_Context storedSnapshot)
                  (ss_Event storedSnapshot)
                  (ss_actionsToProcess storedSnapshot) jobId w)
      end
  end.

(** Histories over slices, as [step] and [run] above. *)
Definition sd_step (o : op Value Ctx World) (sd : slice_dispatcher) (w : World)
  : option (reply * slice_dispatcher * World * list (Action Value Ctx World)) :=
  match o with
  | OpAddAction act =>
      let '(err, sd') := sd_AddAction sd act in Some (ReplyError err, sd', w, [])
  | OpRemoveAction act =>
      let '(err, sd') := sd_RemoveAction sd act in Some (ReplyError err, sd', w, [])
  | OpHandleEvent ctx ev =>
      let '(jobId, (err, sd', w', calls)) := sd_HandleEvent sd ctx ev w in
      Some (ReplyJob jobId err, sd', w', calls)
  | OpRetryJob jobId =>
      match sd_RetryJob sd jobId w with
      | None => None
      | Some (err, sd', w', calls) => Some (ReplyError err, sd', w', calls)
      end
  | OpWorld f => Some (ReplyNothing, sd, f w, [])
  end.

Fixpoint sd_run (ops : list (op Value Ctx World)) (sd : slice_dispatcher) (w : World)
  : option (list reply * slice_dispatcher * World) :=
  match ops with
  | [] => Some ([], sd, w)
  | o :: ops' =>
      match sd_step o sd w with
      | None => None
      | Some (r, sd', w', _) =>
          match sd_run ops' sd' w' with
          | None => None
          | Some (rs, sd'', w'') => Some (r :: rs, sd'', w'')
          end
      end
  end.

(** The dispatcher of the list model that a dispatcher over slices stands
    for: every slice is replaced by its elements. *)
Definition list_snapshot (h : gmap nat (list (Action Value Ctx World)))
    (ss : slice_snapshot) : snapshot Value Ctx World :=
  {| Id := ss_Id ss;
     snapshot_Event := ss_Event ss;
     ActionsResults := ss_ActionsResults ss;
     snapshot_Context := ss_Context ss;
     Success := ss_Success ss;
     actionsToProcess := read h (ss_actionsToProcess ss) |}.

Definition list_dispatcher (sd : slice_dispatcher) : EventDispatcher Value Ctx World :=
  {| actions := read (sd_heap sd) (sd_actions sd);
     currentJobId := sd_currentJobId sd;
     snapshots := list_snapshot (sd_heap sd) <$> sd_snapshots sd |}.

Definition list_outcome
    (o : option error * slice_dispatcher * World * list (Action Value Ctx World))
  : outcome Value Ctx World :=
  mkOutcome o.1.1.1 (list_dispatcher o.1.1.2) o.1.2 o.2.

(** What holds of the memory of every dispatcher the operations produce:
    allocated addresses lie below [sd_next]; the registry points into an
    allocated array that has room for its capacity; and a snapshot's slice
    is empty or points into an allocated array other than the registry's. *)
Definition sd_inv (sd : slice_dispatcher) : Prop :=
  (∀ a, is_Some (sd_heap sd !! a) → (a < sd_next sd)%nat) ∧
  (∃ arr, sd_heap sd !! sl_array (sd_actions sd) = Some arr ∧
          (sl_off (sd_actions sd) + sl_cap (sd_actions sd) ≤ length arr)%nat ∧
          (sl_len (sd_actions sd) ≤ sl_cap (sd_actions sd))%nat) ∧
  (∀ j ss, sd_snapshots sd !! j = Some ss →
     apart (sd_next sd) (sd_actions sd) (ss_actionsToProcess ss)).

End SliceDispatcher.

Arguments ss_Id {Value Ctx}.
Arguments ss_Event {Value Ctx}.
Arguments ss_ActionsResults {Value Ctx}.
Arguments ss_Context {Value Ctx}.
Arguments ss_Success {Value Ctx}.
Arguments ss_actionsToProcess {Value Ctx}.
Arguments sd_heap {Value Ctx World}.
Arguments sd_next {Value Ctx World}.
Arguments sd_actions {Value Ctx World}.
Arguments sd_currentJobId {Value Ctx World}.
Arguments sd_snapshots {Value Ctx World}.
Arguments sd_AddAction {Value Ctx World}.
Arguments sd_RemoveAction {Value Ctx World}.
Arguments sd_handleEventByActions {Value Ctx World clock}.
Arguments sd_HandleEvent {Value Ctx World clock}.
Arguments sd_validateRetryJobId {Value Ctx World}.
Arguments sd_RetryJob {Value Ctx World clock}.
Arguments sd_step {Value Ctx World clock}.
Arguments sd_run {Value Ctx World clock}.
Arguments list_snapshot {Value Ctx World}.
Arguments list_dispatcher {Value Ctx World}.
Arguments list_outcome {Value Ctx World}.
Arguments sd_inv {Value Ctx World}.

(** ** The fixtures of event_dispatcher_test.go *)

(** The dynamic values the tests put into events and get out of actions. *)
Inductive dyn : Type :=
  | DInt (n : Z)
  | DString (s : string).

(** What the test actions see of the world: the package-level variable
    [straightCheckErr], and the clock. *)
Record test_world : Type := mkTestWorld {
  straightCheckErr : option error;
  now : string
}.

#[global] Instance test_clock : Clock test_world := now.

Definition setStraightCheckErr (err : option error) (w : test_world) : test_world :=
  {| straightCheckErr := err; now := now w |}.

(** [input[key]] with the comma-ok form; a nil map has no keys. *)
Definition map_index (input : GoMap dyn) (key : string) : option dyn :=
  match input with
  | None => None
  | Some m => m !! key
  end.

Definition actionStraightCheckName : string := "straight_check".
Definition actionDividerName : string := "divider".
Definition actionEmptyName : string := "empty_action".

Definition actionStraightCheck : Action dyn unit test_world :=
  mkAction actionStraightCheckName
    (fun ctx input w => (None, straightCheckErr w, w)).

Definition actionDivider : Action dyn unit test_world :=
  mkAction actionDividerName
    (fun ctx input w =>
       match map_index input "dividend" with
       | None => (None, Some (Errorf "no dividend passed"), w)
       | Some (DInt intDividend) =>
           match map_index input "divider" with
           | None => (None, Some (Errorf "no divider passed"), w)
           | Some (DInt intDivider) =>
               if (intDivider =? 0)%Z
               then (None, Some (Errorf "the passed divider shouldn't be equal to zero"), w)
               else (Some {[ "result" := DInt (wrap_int (intDividend ÷ intDivider)) ]},
                     None, w)
           | Some _ =>
               (None, Some (Errorf "the passed divider expected to be of type int"), w)
           end
       | Some _ =>
           (None, Some (Errorf "the passed dividend expected to be of type int"), w)
       end).

Definition actionEnpty : Action dyn unit test_world :=
  mkAction actionEmptyName (fun ctx input w => (None, None, w)).

(** [buildDispatcher]: a new dispatcher with [actionStraightCheck] and
    [actionDivider] registered in that order. *)
Definition buildDispatcher : EventDispatcher dyn unit test_world :=
  (AddAction (AddAction (NewEventDispatcher dyn unit test_world) actionStraightCheck).2
     actionDivider).2.

(** The same two actions registered the other way round. *)
Definition dividerFirst : EventDispatcher dyn unit test_world :=
  (AddAction (AddAction (NewEventDispatcher dyn unit test_world) actionDivider).2
     actionStraightCheck).2.

(** [event.Event{"dividend": 10, "divider": 5}] *)
Definition ev_10_5 : Event dyn :=
  Some {[ "dividend" := DInt 10; "divider" := DInt 5 ]}.

(** [event.Event{"dividend": 10, "divider": 0}] *)
Definition ev_10_0 : Event dyn :=
  Some {[ "dividend" := DInt 10; "divider" := DInt 0 ]}.

(** [context.Background()] *)
Definition background : unit := tt.

(** A world in which [straightCheckErr] is nil. *)
Definition world0 : test_world := {| straightCheckErr := None; now := "t0" |}.

(** [fmt.Errorf("an error")] *)
Definition an_error : error := Errorf "an error".

(** The world after [setStraightCheckErr(fmt.Errorf("an error"))]. *)
Definition world_err : test_world := setStraightCheckErr (Some an_error) world0.

(** What the tests look at in a snapshot: [Success], the names of the
    recorded results and the names of the pending actions. *)
Definition snapshot_shape (s : snapshot dyn unit test_world)
  : bool * list string * list string :=
  (Success s, result_Name <$> ActionsResults s, Name <$> actionsToProcess s).

(** The opening of [TestRetryFailedJob] and
    [TestSnapshotActionsImmutability]: one event handled without error (job
    0), then, with [straightCheckErr] set, a second one (job 1) that fails
    at the first action. *)
Definition after_job0 : EventDispatcher dyn unit test_world :=
  out_disp (HandleEvent buildDispatcher background ev_10_5 world0).2.

Definition failed_job1 : Z * outcome dyn unit test_world :=
  HandleEvent after_job0 background ev_10_5 world_err.

(** [TestHandleEventWithFail]: a zero divider, which fails [actionDivider]. *)
Definition zero_divider_job0 : Z * outcome dyn unit test_world :=
  HandleEvent buildDispatcher background ev_10_0 world0.

(** [TestNilEventPassing]: a nil event. *)
Definition nil_event_job0 : Z * outcome dyn unit test_world :=
  HandleEvent buildDispatcher background None world0.

(** The calls of [buildDispatcher] and the first [HandleEvent] of the tests
    written as a history, and the whole of
    [TestSnapshotActionsImmutability]. *)
Definition history_job0 : list (op dyn unit test_world) :=
  [ OpAddAction actionStraightCheck;
    OpAddAction actionDivider;
    OpHandleEvent background ev_10_5 ].

Definition history_immutability : list (op dyn unit test_world) :=
  history_job0 ++
  [ OpWorld (setStraightCheckErr (Some an_error));
    OpHandleEvent background ev_10_5;
    OpAddAction actionEnpty;
    OpWorld (setStraightCheckErr None);
    OpRetryJob 1 ].

(** The snapshot [after_job0] holds for job 0, and the one the failed
    dispatch of job 1 stores. *)
Definition job0_snapshot : snapshot dyn unit test_world :=
  {| Id := 0;
     snapshot_Event := ev_10_5;
     ActionsResults :=
       [ mkActionResult actionStraightCheckName ev_10_5 None "t0";
         mkActionResult actionDividerName ev_10_5
           (Some {[ "result" := DInt 2 ]}) "t0" ];
     snapshot_Context := background;
     Success := true;
     actionsToProcess := [] |}.

Definition job1_failed_snapshot : snapshot dyn unit test_world :=
  {| Id := 1;
     snapshot_Event := ev_10_5;
     ActionsResults := [];
     snapshot_Context := background;
     Success := false;
     actionsToProcess := [actionStraightCheck; actionDivider] |}.

(** A dispatcher whose only action ignores its input. *)
Definition emptyOnly : EventDispatcher dyn unit test_world :=
  (AddAction (NewEventDispatcher dyn unit test_world) actionEnpty).2.

(** For the dispatcher over slices: [action.Action{}], and a capacity rule
    for [append] that doubles. *)
Definition zeroAction : Action dyn unit test_world :=
  mkAction "" (fun ctx input w => (None, None, w)).

Definition double_grow (c n : nat) : nat := max n (2 * c).

(** [buildDispatcher], a dispatch that fails at the first action, and then
    [RemoveAction(actionStraightCheck)], over slices. *)
Definition slices_after_remove : option (slice_dispatcher dyn unit test_world) :=
  (λ '(rs, sd, w), sd) <$>
  sd_run zeroAction double_grow
    [ OpAddAction actionStraightCheck;
      OpAddAction actionDivider;
      OpHandleEvent background ev_10_5;
      OpRemoveAction actionStraightCheck ]
    (sd_New dyn unit test_world) world_err.

(** What to look at in such a dispatcher: the registry slice, the names in
    the arrays at addresses 0 to 3, the slice of job 0's snapshot, and the
    names the registry and that snapshot read through the heap. *)
Definition memory_view (sd : slice_dispatcher dyn unit test_world)
  : slice * list (option (list string)) * option slice
    * list string * option (list string) :=
  (sd_actions sd,
   (λ a : nat, (λ l : list (Action dyn unit test_world), Name <$> l) <$> (sd_heap sd !! a))
     <$> [0; 1; 2; 3]%nat,
   ss_actionsToProcess <$> (sd_snapshots sd !! 0%Z),
   Name <$> actions (list_dispatcher sd),
   (λ s : snapshot dyn unit test_world, Name <$> actionsToProcess s)
     <$> (snapshots (list_dispatcher sd) !! 0%Z)).

(** The history up to the failed dispatch of job 1, and calls that may
    follow it. *)
Definition history_job1_failed : list (op dyn unit test_world) :=
  history_job0 ++
  [ OpWorld (setStraightCheckErr (Some an_error));
    OpHandleEvent background ev_10_5 ].

Definition later_calls : list (op dyn unit test_world) :=
  [ OpRetryJob 0;
    OpAddAction actionEnpty;
    OpHandleEvent background ev_10_0;
    OpWorld (setStraightCheckErr None);
    OpRetryJob 1 ].

(** [buildDispatcher] over slices. *)
Definition slices_two_actions : slice_dispatcher dyn unit test_world :=
  (sd_AddAction zeroAction double_grow
     (sd_AddAction zeroAction double_grow (sd_New dyn unit test_world)
        actionStraightCheck).2
     actionDivider).2.

(** On [dividerFirst], with [straightCheckErr] set, the dispatch completes
    [actionDivider] and fails at the second action, [actionStraightCheck]. *)
Definition half_done_job0 : Z * outcome dyn unit test_world :=
  HandleEvent dividerFirst background ev_10_5 world_err.

(** The retry of that job while [straightCheckErr] is still set. *)
Definition failing_retry_job0 : outcome dyn unit test_world :=
  handleEventByActions (out_disp half_done_job0.2) background ev_10_5
    [actionStraightCheck] 0 world_err.

(** The snapshot that dispatch stores. *)
Definition half_done_snapshot : snapshot dyn unit test_world :=
  {| Id := 0;
     snapshot_Event := ev_10_5;
     ActionsResults :=
       [ mkActionResult actionDividerName ev_10_5
           (Some {[ "result" := DInt 2 ]}) "t0" ];
     snapshot_Context := background;
     Success := false;
     actionsToProcess := [actionStraightCheck] |}.

(** * Properties *)

Section DispatcherFacts.

Context {Value Ctx World : Type} {clock : Clock World}.

Implicit Types (d : EventDispatcher Value Ctx World).
Implicit Types (a b act : Action Value Ctx World).
Implicit Types (acts rest : list (Action Value Ctx World)).
Implicit Types (s : snapshot Value Ctx World).
Implicit Types (out : outcome Value Ctx World).
Implicit Types (results : list (actionResult Value)).
Implicit Types (o : op Value Ctx World) (ops : list (op Value Ctx World)).
Implicit Types (w : World) (ctx : Ctx) (ev : Event Value).
Implicit Types (r : reply) (rs : list reply) (jobId j : Z).

(** ** The engine, one attempt at a time *)

Lemma Do_eta ctx ev a w :
  Do a ctx ev w = ((Do a ctx ev w).1.1, (Do a ctx ev w).1.2, (Do a ctx ev w).2).
Proof. by destruct (Do a ctx ev w) as [[??]?]. Qed.

Lemma run_actions_cons_ok ctx ev a rest results w :
  succeeds ctx ev a w →
  run_actions ctx ev (a :: rest) results w =
    let w' := (Do a ctx ev w).2 in
    let r := run_actions ctx ev rest
               (results ++ [mkActionResult (Name a) ev (Do a ctx ev w).1.1 (time_Now w')])
               w' in
    mkAttempt (att_err r) (att_results r) (att_pending r) (att_world r)
              (a :: att_calls r).
Proof.
  unfold succeeds. intros Hok. simpl.
  rewrite (Do_eta ctx ev a w), Hok. done.
Qed.

Lemma run_actions_cons_fail ctx ev a rest results w :
  fails ctx ev a w →
  ∃ e, (Do a ctx ev w).1.2 = Some e ∧
       run_actions ctx ev (a :: rest) results w =
         mkAttempt
           (Some (Errorf (Name a +:+ " action failed: " +:+ error_msg e)))
           results (a :: rest) (Do a ctx ev w).2 [a].
Proof.
  unfold fails. intros Hko. simpl.
  rewrite (Do_eta ctx ev a w).
  destruct ((Do a ctx ev w).1.2) as [e|]; [|done].
  by exists e.
Qed.

Lemma succeeds_or_fails ctx ev a w :
  succeeds ctx ev a w ∨ fails ctx ev a w.
Proof.
  unfold succeeds, fails.
  destruct ((Do a ctx ev w).1.2); [right|left]; done.
Qed.

(** Where an attempt stops: after [n] completed actions, the pending list
    is what is left of the plan, one result was appended per completed
    action, and the calls made are the completed actions plus, on failure,
    the one that failed. *)
Lemma run_actions_shape ctx ev acts results w :
  let r := run_actions ctx ev acts results w in
  ∃ n : nat,
    (n ≤ length acts)%nat ∧
    att_pending r = drop n acts ∧
    result_Name <$> att_results r
      = (result_Name <$> results) ++ (Name <$> take n acts) ∧
    length (att_results r) = (length results + n)%nat ∧
    (∀ i b, (i < n)%nat → acts !! i = Some b →
            succeeds ctx ev b (world_after ctx ev (take i acts) w)) ∧
    ((att_err r = None ∧ n = length acts ∧ att_calls r = acts ∧
      att_world r = world_after ctx ev acts w)
     ∨ (∃ a e, acts !! n = Some a ∧
          fails ctx ev a (world_after ctx ev (take n acts) w) ∧
          (Do a ctx ev (world_after ctx ev (take n acts) w)).1.2 = Some e ∧
          att_err r = Some (Errorf (Name a +:+ " action failed: " +:+ error_msg e)) ∧
          att_calls r = take (S n) acts ∧
          att_world r = world_after ctx ev (take (S n) acts) w)).
Proof.
  revert results w.
  induction acts as [|a rest IH]; intros results w r.
  - exists 0%nat. subst r. simpl.
    rewrite app_nil_r.
    split; [lia|]. split; [done|]. split; [done|]. split; [lia|].
    split; [intros; lia|]. left. done.
  - destruct (succeeds_or_fails ctx ev a w) as [Hok|Hko].
    + subst r. rewrite (run_actions_cons_ok _ _ _ _ _ _ Hok). cbv zeta.
      specialize (IH (results ++
        [mkActionResult (Name a) ev (Do a ctx ev w).1.1 (time_Now (Do a ctx ev w).2)])
        (Do a ctx ev w).2).
      cbv zeta in IH.
      destruct IH as (n & Hn & Hpend & Hnames & Hlen & Hpre & Hend).
      exists (S n). simpl.
      split; [lia|]. split; [done|].
      split.
      { rewrite Hnames, fmap_app. simpl. by rewrite <- app_assoc. }
      split.
      { rewrite Hlen, length_app. simpl. lia. }
      split.
      { intros [|i] b Hi Hb; simpl in *.
        - by inversion Hb; subst.
        - apply Hpre; [lia|done]. }
      destruct Hend as [(He & Hall & Hcalls & Hw)|(b & e & Hb & Hf & HDo & He & Hcalls & Hw)].
      * left. rewrite Hcalls, Hall. done.
      * right. exists b, e. rewrite Hcalls. done.
    + destruct (run_actions_cons_fail _ _ _ rest results _ Hko) as (e & HDo & Hrun).
      subst r. rewrite Hrun.
      exists 0%nat. simpl.
      rewrite app_nil_r.
      split; [lia|]. split; [done|]. split; [done|]. split; [lia|].
      split; [intros; lia|]. right. exists a, e. done.
Qed.

(** The first failing position of an attempt is unique. *)
Lemma kth_fails_first ctx ev acts w k a n b :
  kth_fails ctx ev acts w k a →
  (∀ i c, (i < n)%nat → acts !! i = Some c →
          succeeds ctx ev c (world_after ctx ev (take i acts) w)) →
  acts !! n = Some b →
  fails ctx ev b (world_after ctx ev (take n acts) w) →
  n = (k - 1)%nat ∧ b = a.
Proof.
  intros (Hk & Ha & Hpre & Hfail) Hpre' Hb Hfail'.
  assert (n = (k - 1)%nat) as ->.
  { destruct (Nat.lt_trichotomy n (k - 1)) as [Hlt|[Heq|Hgt]]; [|done|].
    - specialize (Hpre _ _ Hlt Hb). unfold succeeds, fails in *. done.
    - specialize (Hpre' _ _ Hgt Ha). unfold succeeds, fails in *. done. }
  split; [done|]. congruence.
Qed.

Lemma run_actions_kth_fails ctx ev acts results w k a :
  kth_fails ctx ev acts w k a →
  let r := run_actions ctx ev acts results w in
  (∃ e, (Do a ctx ev (world_after ctx ev (take (k - 1) acts) w)).1.2 = Some e ∧
        att_err r = Some (Errorf (Name a +:+ " action failed: " +:+ error_msg e))) ∧
  att_pending r = drop (k - 1) acts ∧
  length (att_results r) = (length results + (k - 1))%nat ∧
  result_Name <$> att_results r
    = (result_Name <$> results) ++ (Name <$> take (k - 1) acts) ∧
  att_calls r = take k acts ∧
  att_world r = world_after ctx ev (take k acts) w.
Proof.
  intros Hk r.
  destruct (run_actions_shape ctx ev acts results w)
    as (n & Hn & Hpend & Hnames & Hlen & Hpre & Hend).
  fold r in Hpend, Hnames, Hlen, Hend.
  destruct Hend as [(He & Hall & Hcalls & Hw)|(b & e & Hb & Hf & HDo & He & Hcalls & Hw)].
  - exfalso. destruct Hk as (Hpos & Ha & _ & Hfail).
    assert (k - 1 < n)%nat as Hlt.
    { rewrite Hall. eapply lookup_lt_Some. exact Ha. }
    specialize (Hpre _ _ Hlt Ha). unfold succeeds, fails in *. done.
  - destruct (kth_fails_first _ _ _ _ _ _ _ _ Hk Hpre Hb Hf) as [-> ->].
    assert (S (k - 1) = k) as Hsk by (destruct Hk; lia).
    rewrite Hsk in Hcalls, Hw.
    split; [by exists e|]. done.
Qed.

Lemma run_actions_all_succeed ctx ev acts results w :
  all_succeed ctx ev acts w →
  let r := run_actions ctx ev acts results w in
  att_err r = None ∧
  att_pending r = [] ∧
  length (att_results r) = (length results + length acts)%nat ∧
  result_Name <$> att_results r = (result_Name <$> results) ++ (Name <$> acts) ∧
  att_calls r = acts ∧
  att_world r = world_after ctx ev acts w.
Proof.
  intros Hall r.
  destruct (run_actions_shape ctx ev acts results w)
    as (n & Hn & Hpend & Hnames & Hlen & Hpre & Hend).
  fold r in Hpend, Hnames, Hlen, Hend.
  destruct Hend as [(He & Hn' & Hcalls & Hw)|(b & e & Hb & Hf & _)].
  - subst n. rewrite drop_all in Hpend. rewrite firstn_all in Hnames. done.
  - exfalso. specialize (Hall _ _ Hb). unfold succeeds, fails in *. done.
Qed.

(** Results and pending actions always add up to the plan of the attempt. *)
Lemma run_actions_partition ctx ev acts results w :
  let r := run_actions ctx ev acts results w in
  (length (att_results r) + length (att_pending r)
   = length results + length acts)%nat ∧
  (result_Name <$> att_results r) ++ (Name <$> att_pending r)
    = (result_Name <$> results) ++ (Name <$> acts).
Proof.
  intros r.
  destruct (run_actions_shape ctx ev acts results w)
    as (n & Hn & Hpend & Hnames & Hlen & _).
  fold r in Hpend, Hnames, Hlen.
  rewrite Hpend, Hnames, Hlen, length_drop. split; [lia|].
  rewrite <- app_assoc, <- fmap_app, take_drop. done.
Qed.

(** An attempt ends without error exactly when nothing is left pending. *)
Lemma run_actions_err_pending ctx ev acts results w :
  let r := run_actions ctx ev acts results w in
  att_err r = None ↔ att_pending r = [].
Proof.
  intros r.
  destruct (run_actions_shape ctx ev acts results w)
    as (n & Hn & Hpend & _ & _ & _ & Hend).
  fold r in Hpend, Hend.
  destruct Hend as [(He & Hn' & _)|(b & e & Hb & _ & _ & He & _)].
  - subst n. rewrite drop_all in Hpend. done.
  - rewrite He, Hpend. split; [done|].
    intros Hnil. apply (f_equal length) in Hnil.
    rewrite length_drop in Hnil. apply lookup_lt_Some in Hb. simpl in Hnil. lia.
Qed.

(** The calls of an attempt are an initial segment of its plan. *)
Lemma run_actions_calls_prefix ctx ev acts results w :
  att_calls (run_actions ctx ev acts results w) `prefix_of` acts.
Proof.
  destruct (run_actions_shape ctx ev acts results w)
    as (n & _ & _ & _ & _ & _ & Hend).
  destruct Hend as [(_ & _ & -> & _)|(b & e & _ & _ & _ & _ & -> & _)].
  - done.
  - apply prefix_take.
Qed.

(** The results recorded before the attempt play no part in what the
    attempt does. *)
Lemma run_actions_results_irrel ctx ev acts results results' w :
  let r := run_actions ctx ev acts results w in
  let r' := run_actions ctx ev acts results' w in
  att_err r = att_err r' ∧ att_pending r = att_pending r' ∧
  att_calls r = att_calls r' ∧ att_world r = att_world r'.
Proof.
  revert results results' w.
  induction acts as [|a rest IH]; intros results results' w; [done|].
  destruct (succeeds_or_fails ctx ev a w) as [Hok|Hko].
  - rewrite !(run_actions_cons_ok _ _ _ _ _ _ Hok). cbv zeta. simpl.
    edestruct IH as (He & Hp & Hc & Hw).
    rewrite He, Hp, Hc, Hw. done.
  - destruct (run_actions_cons_fail _ _ _ rest results _ Hko) as (e & HDo & ->).
    destruct (run_actions_cons_fail _ _ _ rest results' _ Hko) as (e' & HDo' & ->).
    simpl. rewrite HDo in HDo'. by inversion HDo'.
Qed.


Lemma RetryJob_attempt d jobId s w :
  snapshots d !! jobId = Some s →
  validateRetryJobId d jobId = Some None →
  RetryJob d jobId w =
    Some (handleEventByActions d (snapshot_Context s) (snapshot_Event s)
            (actionsToProcess s) jobId w).
Proof. intros Hs Hv. unfold RetryJob. by rewrite Hv, Hs. Qed.

(** Either way the attempt is one run of the engine, which stores its
    snapshot under the job id it was given. *)
Lemma execution_attempt_engine d w ctx ev acts jobId out :
  execution_attempt d w ctx ev acts jobId out →
  let r := run_actions ctx ev acts [] w in
  out_err out = att_err r ∧
  out_world out = att_world r ∧
  out_calls out = att_calls r ∧
  actions (out_disp out) = actions d ∧
  snapshots (out_disp out) =
    <[jobId :=
        {| Id := jobId; snapshot_Event := ev;
           ActionsResults := att_results r; snapshot_Context := ctx;
           Success := match att_err r with None => true | Some _ => false end;
           actionsToProcess := att_pending r |}]> (snapshots d).
Proof.
  intros [ctx' ev'|jobId' s out' Hs Hv Hr]; [done|].
  rewrite (RetryJob_attempt _ _ _ _ Hs Hv) in Hr.
  by inversion Hr.
Qed.

(** ** The registry does not touch jobs *)

Lemma AddAction_frame d act :
  currentJobId (AddAction d act).2 = currentJobId d ∧
  snapshots (AddAction d act).2 = snapshots d.
Proof. unfold AddAction. by destruct (has_name _ _). Qed.

Lemma RemoveAction_frame d act :
  currentJobId (RemoveAction d act).2 = currentJobId d ∧
  snapshots (RemoveAction d act).2 = snapshots d.
Proof. unfold RemoveAction. by destruct (index_of_name _ _). Qed.

(** ** Well-formed dispatchers *)

Lemma wrap_int_small z : (int_min ≤ z ≤ int_max)%Z → wrap_int z = z.
Proof.
  unfold wrap_int, int_min, int_max. intros Hz.
  rewrite Z.mod_small by lia. lia.
Qed.

Lemma wf_New : wf (NewEventDispatcher Value Ctx World).
Proof. split; simpl; [unfold int_max; lia|]. by rewrite dom_empty_L. Qed.

Lemma wf_lookup d j :
  wf d → is_Some (snapshots d !! j) ↔ (0 ≤ j < currentJobId d)%Z.
Proof.
  intros [_ Hdom]. rewrite <- elem_of_dom, Hdom, elem_of_list_to_set, elem_of_seqZ.
  lia.
Qed.

Lemma wf_size d : wf d → Z.of_nat (size (snapshots d)) = currentJobId d.
Proof.
  intros [Hr Hdom]. rewrite <- size_dom, Hdom.
  rewrite size_list_to_set by apply NoDup_seqZ.
  rewrite length_seqZ. lia.
Qed.

(** On a well-formed dispatcher [validateRetryJobId] never dereferences a
    nil snapshot pointer. *)
Lemma validateRetryJobId_wf d jobId :
  wf d →
  ((jobId < 0 ∨ currentJobId d ≤ jobId)%Z ∧
     validateRetryJobId d jobId = Some (Some ErrorInvalidJobId))
  ∨ (∃ s, (0 ≤ jobId < currentJobId d)%Z ∧ snapshots d !! jobId = Some s ∧
       validateRetryJobId d jobId =
         (if Success s then Some (Some ErrorSucceededJobRetryCall) else Some None)).
Proof.
  intros Hwf. unfold validateRetryJobId. rewrite (wf_size _ Hwf).
  destruct (Z.leb_spec (currentJobId d) jobId) as [Hge|Hlt]; simpl.
  { left. split; [lia|done]. }
  destruct (Z.ltb_spec jobId 0) as [Hneg|Hpos].
  { left. split; [lia|done]. }
  right.
  destruct (proj2 (wf_lookup d jobId Hwf)) as [s Hs]; [lia|].
  exists s. rewrite Hs. split; [lia|done].
Qed.

Lemma wf_same_jobs d d' :
  wf d → currentJobId d' = currentJobId d →
  dom (snapshots d') = dom (snapshots d) → wf d'.
Proof. intros [Hr Hdom] Hc Hd. split; rewrite Hc; [done|]. by rewrite Hd. Qed.

Lemma AddAction_wf d act : wf d → wf (AddAction d act).2.
Proof.
  intros Hwf. destruct (AddAction_frame d act) as [Hc Hs].
  apply (wf_same_jobs d); [done|done|by rewrite Hs].
Qed.

Lemma RemoveAction_wf d act : wf d → wf (RemoveAction d act).2.
Proof.
  intros Hwf. destruct (RemoveAction_frame d act) as [Hc Hs].
  apply (wf_same_jobs d); [done|done|by rewrite Hs].
Qed.

Lemma HandleEvent_jobs d ctx ev w :
  (HandleEvent d ctx ev w).1 = currentJobId d ∧
  currentJobId (out_disp (HandleEvent d ctx ev w).2) = wrap_int (currentJobId d + 1) ∧
  dom (snapshots (out_disp (HandleEvent d ctx ev w).2))
    = {[ currentJobId d ]} ∪ dom (snapshots d).
Proof. unfold HandleEvent. simpl. by rewrite dom_insert_L. Qed.

Lemma HandleEvent_wf d ctx ev w :
  wf d → (currentJobId d < int_max)%Z →
  wf (out_disp (HandleEvent d ctx ev w).2) ∧
  currentJobId (out_disp (HandleEvent d ctx ev w).2) = (currentJobId d + 1)%Z.
Proof.
  intros [Hr Hdom] Hlt.
  destruct (HandleEvent_jobs d ctx ev w) as (_ & Hc & Hd).
  rewrite wrap_int_small in Hc by (unfold int_min in *; unfold int_max in *; lia).
  split; [|done]. split; rewrite Hc; [lia|].
  rewrite Hd, Hdom.
  replace (currentJobId d + 1)%Z with (Z.of_nat (S (Z.to_nat (currentJobId d)))) by lia.
  rewrite seqZ_S, list_to_set_snoc_L.
  rewrite Z2Nat.id by lia. rewrite Z.add_0_l. apply (comm_L (∪)).
Qed.

(** [RetryJob] on a well-formed dispatcher returns, and neither the
    counter nor the set of stored job ids changes. *)
Lemma RetryJob_jobs d jobId w :
  wf d →
  ∃ out, RetryJob d jobId w = Some out ∧
         currentJobId (out_disp out) = currentJobId d ∧
         actions (out_disp out) = actions d ∧
         dom (snapshots (out_disp out)) = dom (snapshots d).
Proof.
  intros Hwf. unfold RetryJob.
  destruct (validateRetryJobId_wf d jobId Hwf) as [[_ ->]|(s & Hj & Hs & ->)].
  { eexists. split; [done|]. done. }
  destruct (Success s).
  { eexists. split; [done|]. done. }
  rewrite Hs. eexists. split; [done|]. simpl.
  split; [done|]. split; [done|].
  apply dom_insert_lookup_L. by rewrite Hs.
Qed.

Lemma RetryJob_wf d jobId w :
  wf d → ∃ out, RetryJob d jobId w = Some out ∧ wf (out_disp out) ∧
                currentJobId (out_disp out) = currentJobId d.
Proof.
  intros Hwf. destruct (RetryJob_jobs d jobId w Hwf) as (out & Hr & Hc & _ & Hd).
  exists out. split; [done|]. split; [|done].
  by apply (wf_same_jobs d).
Qed.

(** [RetryJob] stores a snapshot only under a key that is already there,
    whatever the dispatcher. *)
Lemma RetryJob_dom d jobId w out :
  RetryJob d jobId w = Some out →
  currentJobId (out_disp out) = currentJobId d ∧
  dom (snapshots (out_disp out)) = dom (snapshots d).
Proof.
  unfold RetryJob.
  destruct (validateRetryJobId d jobId) as [[err|]|]; [| |done].
  { intros [= <-]. done. }
  destruct (snapshots d !! jobId) as [s|] eqn:Hs; [|done].
  intros [= <-]. simpl. split; [done|].
  apply dom_insert_lookup_L. by rewrite Hs.
Qed.

(** ** Histories *)

Lemma step_wf o d w :
  wf d →
  (currentJobId d + Z.of_nat (handle_count [o]) ≤ int_max)%Z →
  ∃ r d' w' calls,
    step o d w = Some (r, d', w', calls) ∧
    wf d' ∧
    currentJobId d' = (currentJobId d + Z.of_nat (handle_count [o]))%Z ∧
    job_ids [r] = seqZ (currentJobId d) (Z.of_nat (handle_count [o])).
Proof.
  intros Hwf Hb. destruct o as [act|act|ctx ev|jobId|f]; cbn [step handle_count] in *.
  - destruct (AddAction d act) as [err d'] eqn:E.
    pose proof (AddAction_wf d act Hwf) as Hwf'.
    destruct (AddAction_frame d act) as [Hc _]. rewrite E in Hwf', Hc. simpl in *.
    eexists _, _, _, _. split; [done|]. split; [done|]. split; [lia|done].
  - destruct (RemoveAction d act) as [err d'] eqn:E.
    pose proof (RemoveAction_wf d act Hwf) as Hwf'.
    destruct (RemoveAction_frame d act) as [Hc _]. rewrite E in Hwf', Hc. simpl in *.
    eexists _, _, _, _. split; [done|]. split; [done|]. split; [lia|done].
  - destruct (HandleEvent_wf d ctx ev w Hwf) as [Hwf' Hc]; [lia|].
    destruct (HandleEvent_jobs d ctx ev w) as (Hj & _).
    destruct (HandleEvent d ctx ev w) as [j out]. cbn [fst snd] in *.
    eexists _, _, _, _. split; [done|]. split; [done|]. split; [lia|].
    subst j. cbn [job_ids]. rewrite seqZ_cons by lia. by rewrite seqZ_nil by lia.
  - destruct (RetryJob_wf d jobId w Hwf) as (out & -> & Hwf' & Hc).
    eexists _, _, _, _. split; [done|]. split; [done|]. split; [lia|done].
  - eexists _, _, _, _. split; [done|]. split; [done|]. split; [lia|done].
Qed.

Lemma job_ids_cons r rs : job_ids (r :: rs) = job_ids [r] ++ job_ids rs.
Proof. by destruct r. Qed.

Lemma handle_count_cons o ops :
  handle_count (o :: ops) = (handle_count [o] + handle_count ops)%nat.
Proof. by destruct o. Qed.

(** A history that keeps the counter within [int] runs to its end from a
    well-formed dispatcher, hands out consecutive job ids and ends in a
    well-formed dispatcher. *)
Lemma run_wf ops : ∀ d w,
  wf d →
  (currentJobId d + Z.of_nat (handle_count ops) ≤ int_max)%Z →
  ∃ rs d' w',
    run ops d w = Some (rs, d', w') ∧
    wf d' ∧
    currentJobId d' = (currentJobId d + Z.of_nat (handle_count ops))%Z ∧
    job_ids rs = seqZ (currentJobId d) (Z.of_nat (handle_count ops)).
Proof.
  induction ops as [|o ops IH]; intros d w Hwf Hb.
  - exists [], d, w. simpl. split; [done|]. split; [done|]. split; [lia|done].
  - rewrite handle_count_cons in *.
    destruct (step_wf o d w Hwf) as (r & d1 & w1 & calls & Hstep & Hwf1 & Hc1 & Hids1);
      [lia|].
    destruct (IH d1 w1 Hwf1) as (rs & d2 & w2 & Hrun & Hwf2 & Hc2 & Hids2); [lia|].
    exists (r :: rs), d2, w2.
    cbn [run]. rewrite Hstep, Hrun.
    split; [done|]. split; [done|]. split; [lia|].
    rewrite job_ids_cons, Hids1, Hids2, Hc1, Nat2Z.inj_add.
    symmetry. apply seqZ_app; lia.
Qed.

Lemma run_New ops w0 :
  (Z.of_nat (handle_count ops) ≤ int_max)%Z →
  ∃ rs d w,
    run ops (NewEventDispatcher Value Ctx World) w0 = Some (rs, d, w) ∧
    wf d ∧
    currentJobId d = Z.of_nat (handle_count ops) ∧
    job_ids rs = seqZ 0 (Z.of_nat (handle_count ops)).
Proof.
  intros Hb.
  destruct (run_wf ops (NewEventDispatcher Value Ctx World) w0 wf_New) as (rs & d & w & Hrun & Hwf & Hc & Hids).
  { simpl. lia. }
  exists rs, d, w. simpl in *. rewrite Z.add_0_l in Hc. done.
Qed.

Lemma reachable_wf d : reachable d → wf d.
Proof.
  intros (ops & w0 & rs & w & Hb & Hrun).
  destruct (run_New ops w0 Hb) as (rs' & d' & w' & Hrun' & Hwf & _).
  rewrite Hrun in Hrun'. by inversion Hrun'; subst.
Qed.


(** With no results to start from, the pending list an attempt leaves is
    its plan without as many actions as it recorded results. *)
Lemma run_actions_pending_drop ctx ev acts w :
  att_pending (run_actions ctx ev acts [] w)
  = drop (length (att_results (run_actions ctx ev acts [] w))) acts.
Proof.
  destruct (run_actions_shape ctx ev acts [] w) as (n & _ & Hpend & _ & Hlen & _).
  rewrite Hpend, Hlen. done.
Qed.

(** ** Attempts and their snapshots *)

(** An attempt all of whose actions succeed ends in a terminal snapshot that
    holds one result per action of the attempt's own plan [acts]: for an
    original dispatch that is the registry, for a retry the actions that
    were still pending. *)
Lemma attempt_all_succeed d w ctx ev acts jobId out :
  execution_attempt d w ctx ev acts jobId out →
  all_succeed ctx ev acts w →
  ∃ s,
    snapshots (out_disp out) !! jobId = Some s ∧
    Success s = true ∧
    length (ActionsResults s) = length acts ∧
    actionsToProcess s = [] ∧
    out_calls out = acts ∧
    out_err out = None.
Proof.
  intros Hat Hall.
  destruct (execution_attempt_engine _ _ _ _ _ _ _ Hat) as (He & Hw & Hc & _ & Hs).
  destruct (run_actions_all_succeed ctx ev acts [] w Hall)
    as (Herr & Hpend & Hlen & _ & Hcalls & _).
  eexists. rewrite Hs, lookup_insert_eq. split; [done|]. simpl.
  rewrite Herr, Hpend, Hlen, Hc, Hcalls, He, Herr. done.
Qed.

(** In a stored snapshot [Success] is true exactly when nothing is pending,
    and results plus pending actions add up to the plan of the attempt that
    stored it. *)
Lemma attempt_snapshot_shape d w ctx ev acts jobId out :
  execution_attempt d w ctx ev acts jobId out →
  ∃ s,
    snapshots (out_disp out) !! jobId = Some s ∧
    (Success s = true ↔ actionsToProcess s = []) ∧
    (Success s = true ↔ out_err out = None) ∧
    (length (ActionsResults s) + length (actionsToProcess s) = length acts)%nat ∧
    out_calls out `prefix_of` acts.
Proof.
  intros Hat.
  destruct (execution_attempt_engine _ _ _ _ _ _ _ Hat) as (He & Hw & Hc & _ & Hs).
  eexists. rewrite Hs, lookup_insert_eq. split; [done|]. simpl.
  pose proof (run_actions_err_pending ctx ev acts [] w) as Hep. cbv zeta in Hep.
  pose proof (run_actions_partition ctx ev acts [] w) as [Hlen _].
  rewrite He, Hc. split; [|split; [|split]].
  - rewrite <- Hep. by destruct (att_err _).
  - by destruct (att_err _).
  - done.
  - apply run_actions_calls_prefix.
Qed.

(** C1. For every execution attempt (original dispatch or retry), if the
    k-th action (counting from 1) of the attempt's pending list fails, the
    snapshot stored for the job has Success = false, exactly k-1 action
    results (those of the first k-1 actions, recorded by this attempt), a
    pending list that starts with the failed k-th action, and the attempt
    called the first k actions and none after the k-th. *)
Theorem failed_attempt_snapshot d w ctx ev acts jobId out k a :
  execution_attempt d w ctx ev acts jobId out →
  kth_fails ctx ev acts w k a →
  ∃ s,
    snapshots (out_disp out) !! jobId = Some s ∧
    Success s = false ∧
    length (ActionsResults s) = (k - 1)%nat ∧
    result_Name <$> ActionsResults s = Name <$> take (k - 1) acts ∧
    actionsToProcess s = drop (k - 1) acts ∧
    head (actionsToProcess s) = Some a ∧
    out_calls out = take k acts ∧
    out_world out = world_after ctx ev (take k acts) w ∧
    ∃ e, out_err out = Some (Errorf (Name a +:+ " action failed: " +:+ error_msg e)).
Proof.
  intros Hat Hk.
  destruct (execution_attempt_engine _ _ _ _ _ _ _ Hat) as (He & Hw & Hc & _ & Hs).
  destruct (run_actions_kth_fails ctx ev acts [] w k a Hk)
    as ((e & _ & Herr) & Hpend & Hlen & Hnames & Hcalls & Hworld).
  eexists. rewrite Hs, lookup_insert_eq. split; [done|]. simpl.
  rewrite Herr, Hpend, Hlen, Hnames, Hc, Hcalls, Hw, Hworld, He, Herr.
  split; [done|]. split; [done|]. split; [done|]. split; [done|].
  split.
  { rewrite head_lookup, lookup_drop, Nat.add_0_r. by destruct Hk as (_ & ? & _). }
  split; [done|]. split; [done|]. by exists e.
Qed.

(** ** Job ids *)

(** C6. On a fresh dispatcher the successive calls of HandleEvent return
    the job ids 0, 1, 2, ... in that order, one more per call, whatever the
    other calls in between and whether the jobs succeed or fail; no id is
    handed out twice, and RetryJob leaves the counter where it was. *)
Theorem job_ids_consecutive ops w0 :
  (Z.of_nat (handle_count ops) ≤ int_max)%Z →
  ∃ rs d w,
    run ops (NewEventDispatcher Value Ctx World) w0 = Some (rs, d, w) ∧
    job_ids rs = seqZ 0 (Z.of_nat (handle_count ops)) ∧
    NoDup (job_ids rs) ∧
    currentJobId d = Z.of_nat (handle_count ops) ∧
    ∀ d' jobId w' out,
      RetryJob d' jobId w' = Some out → currentJobId (out_disp out) = currentJobId d'.
Proof.
  intros Hb.
  destruct (run_New ops w0 Hb) as (rs & d & w & Hrun & _ & Hc & Hids).
  exists rs, d, w. split; [done|]. split; [done|].
  split; [rewrite Hids; apply NoDup_seqZ|]. split; [done|].
  intros d' jobId w' out Hr. by destruct (RetryJob_dom _ _ _ _ Hr).
Qed.

(** ** Retrying what cannot be retried *)

(** C7. RetryJob on a job whose stored snapshot has Success = true returns
    ErrorSucceededJobRetryCall, calls no action and leaves the dispatcher
    (that snapshot included) and the world as they were. *)
Theorem retry_succeeded_job d jobId s w :
  reachable d →
  snapshots d !! jobId = Some s →
  Success s = true →
  RetryJob d jobId w = Some (mkOutcome (Some ErrorSucceededJobRetryCall) d w []).
Proof.
  intros Hr Hs Hok. apply reachable_wf in Hr.
  unfold RetryJob.
  destruct (validateRetryJobId_wf d jobId Hr) as [[Hout Hv]|(s' & Hin & Hs' & Hv)].
  - exfalso. assert (is_Some (snapshots d !! jobId)) as Hsome by (by rewrite Hs).
    apply (wf_lookup _ _ Hr) in Hsome. lia.
  - rewrite Hv. rewrite Hs in Hs'. inversion Hs'; subst s'. by rewrite Hok.
Qed.

(** C8. RetryJob with a negative job id, or with an id that no HandleEvent
    call of the history returned, returns ErrorInvalidJobId, calls no action
    and leaves the dispatcher and the world as they were. *)
Theorem retry_invalid_job ops w0 rs d w1 jobId w :
  (Z.of_nat (handle_count ops) ≤ int_max)%Z →
  run ops (NewEventDispatcher Value Ctx World) w0 = Some (rs, d, w1) →
  (jobId < 0)%Z ∨ jobId ∉ job_ids rs →
  RetryJob d jobId w = Some (mkOutcome (Some ErrorInvalidJobId) d w []).
Proof.
  intros Hb Hrun Hj.
  destruct (run_New ops w0 Hb) as (rs' & d' & w' & Hrun' & Hwf & Hc & Hids).
  rewrite Hrun in Hrun'. inversion Hrun'; subst rs' d' w'. clear Hrun'.
  unfold RetryJob.
  destruct (validateRetryJobId_wf d jobId Hwf) as [[Hout Hv]|(s & Hin & Hs & Hv)].
  - by rewrite Hv.
  - exfalso. destruct Hj as [Hneg|Hnin]; [lia|].
    apply Hnin. rewrite Hids, elem_of_seqZ. lia.
Qed.

(** ** The snapshot store *)

(** C10. After any history of public calls on a fresh dispatcher the keys
    of the snapshot store are exactly 0 .. currentJobId - 1, which are the
    ids HandleEvent returned, and the store's size equals the counter.
    Every HandleEvent call, nil event or not, failed run or not, adds its
    returned id to the keys; RetryJob never changes the set of keys. *)
Theorem snapshot_store_keys ops w0 :
  (Z.of_nat (handle_count ops) ≤ int_max)%Z →
  ∃ rs d w,
    run ops (NewEventDispatcher Value Ctx World) w0 = Some (rs, d, w) ∧
    dom (snapshots d) = list_to_set (C := gset Z) (seqZ 0 (currentJobId d)) ∧
    Z.of_nat (size (snapshots d)) = currentJobId d ∧
    (∀ j, j ∈ dom (snapshots d) ↔ j ∈ job_ids rs) ∧
    (∀ d' ctx ev w',
       dom (snapshots (out_disp (HandleEvent d' ctx ev w').2))
         = {[ (HandleEvent d' ctx ev w').1 ]} ∪ dom (snapshots d')) ∧
    (∀ d' jobId w' out,
       RetryJob d' jobId w' = Some out →
       dom (snapshots (out_disp out)) = dom (snapshots d')).
Proof.
  intros Hb.
  destruct (run_New ops w0 Hb) as (rs & d & w & Hrun & Hwf & Hc & Hids).
  exists rs, d, w. split; [done|].
  split; [by destruct Hwf|]. split; [by apply wf_size|].
  split.
  { intros j. destruct Hwf as [_ ->]. rewrite elem_of_list_to_set, Hids, Hc. done. }
  split.
  { intros d' ctx ev w'. by destruct (HandleEvent_jobs d' ctx ev w') as (-> & _ & ->). }
  intros d' jobId w' out Hr. by destruct (RetryJob_dom _ _ _ _ Hr).
Qed.

(** ** Registry changes and stored jobs *)

Lemma step_registry_frame o d w r d' w' calls :
  registry_op o = true →
  step o d w = Some (r, d', w', calls) →
  snapshots d' = snapshots d ∧ currentJobId d' = currentJobId d ∧ w' = w.
Proof.
  destruct o as [act|act|ctx ev|jobId|f]; try done; intros _; cbn [step].
  - destruct (AddAction_frame d act) as [Hc Hs].
    destruct (AddAction d act) as [err d1]. intros [= <- <- <- <-]. done.
  - destruct (RemoveAction_frame d act) as [Hc Hs].
    destruct (RemoveAction d act) as [err d1]. intros [= <- <- <- <-]. done.
Qed.

Lemma run_registry_frame ops : ∀ d w rs d' w',
  forallb registry_op ops = true →
  run ops d w = Some (rs, d', w') →
  snapshots d' = snapshots d ∧ currentJobId d' = currentJobId d ∧ w' = w.
Proof.
  induction ops as [|o ops IH]; intros d w rs d' w' Hreg Hrun.
  - by inversion Hrun; subst.
  - cbn [forallb] in Hreg. apply andb_prop in Hreg as [Ho Hops].
    cbn [run] in Hrun.
    destruct (step o d w) as [[[[r d1] w1] calls]|] eqn:Hstep; [|done].
    destruct (run ops d1 w1) as [[[rs2 d2] w2]|] eqn:Hrun2; [|done].
    inversion Hrun; subst.
    destruct (step_registry_frame _ _ _ _ _ _ _ Ho Hstep) as (Hs1 & Hc1 & ->).
    destruct (IH _ _ _ _ _ Hops Hrun2) as (Hs2 & Hc2 & ->).
    rewrite Hs2, Hs1, Hc2, Hc1. done.
Qed.

(** What [RetryJob] does to jobs depends on the snapshot store alone. *)
Lemma RetryJob_snapshots_only d d' jobId w :
  snapshots d' = snapshots d →
  job_view <$> RetryJob d' jobId w = job_view <$> RetryJob d jobId w.
Proof.
  intros Hs. unfold RetryJob, validateRetryJobId. rewrite Hs.
  destruct (_ || _).
  { unfold job_view. simpl. by rewrite Hs. }
  destruct (snapshots d !! jobId) as [s|]; [|done].
  destruct (Success s); unfold job_view, handleEventByActions; simpl; by rewrite Hs.
Qed.

(** [RetryJob] calls an initial segment of the stored pending list. *)
Lemma RetryJob_calls d jobId s w out :
  snapshots d !! jobId = Some s →
  RetryJob d jobId w = Some out →
  out_calls out `prefix_of` actionsToProcess s.
Proof.
  intros Hs. unfold RetryJob.
  destruct (validateRetryJobId d jobId) as [[err|]|]; [| |done].
  { intros [= <-]. apply prefix_nil. }
  rewrite Hs. intros [= <-]. apply run_actions_calls_prefix.
Qed.


(** ** Nil events *)


End DispatcherFacts.

(** * Slices against lists *)

Section SliceFacts.

Context {A : Type}.
Implicit Types (h : gmap nat (list A)) (s : slice) (a arr xs : list A).

Lemma write_at_nil a pos : write_at a pos [] = a.
Proof. unfold write_at. simpl. by rewrite Nat.add_0_r, take_drop. Qed.

Lemma length_write_at a pos xs :
  (pos + length xs ≤ length a)%nat → length (write_at a pos xs) = length a.
Proof.
  intros Hle. unfold write_at.
  rewrite !length_app, length_take, length_drop. lia.
Qed.

Lemma read_length h s arr :
  h !! sl_array s = Some arr →
  (sl_off s + sl_len s ≤ length arr)%nat →
  length (read h s) = sl_len s.
Proof.
  intros Harr Hle. unfold read. rewrite Harr. simpl.
  rewrite length_take, length_drop. lia.
Qed.

Lemma read_empty h s : sl_len s = 0%nat → read h s = [].
Proof. intros Hlen. unfold read. by rewrite Hlen. Qed.

Lemma read_alter_other h s f k :
  sl_array s ≠ k → read (alter f k h) s = read h s.
Proof. intros Hne. unfold read. by rewrite lookup_alter_ne. Qed.

Lemma read_insert_other h s k a :
  sl_array s ≠ k → read (<[k := a]> h) s = read h s.
Proof. intros Hne. unfold read. by rewrite lookup_insert_ne. Qed.

(** [s[i:]] drops the first [i] elements. *)
Lemma read_reslice_from h s i :
  read h (reslice s i (sl_len s)) = drop i (read h s).
Proof.
  unfold read, reslice. simpl.
  rewrite <- drop_drop.
  destruct (decide (i ≤ sl_len s)%nat) as [Hle|Hgt].
  - rewrite take_drop_commute. by replace (i + (sl_len s - i))%nat with (sl_len s) by lia.
  - replace (sl_len s - i)%nat with 0%nat by lia. simpl.
    symmetry. apply drop_ge. rewrite length_take. lia.
Qed.

(** [s[:j]] keeps the first [j] elements. *)
Lemma read_reslice_to h s j :
  (j ≤ sl_len s)%nat → read h (reslice s 0 j) = take j (read h s).
Proof.
  intros Hle. unfold read, reslice. simpl.
  rewrite Nat.add_0_r, Nat.sub_0_r, take_take.
  by replace (j `min` sl_len s)%nat with j by lia.
Qed.

(** [append] in place: the slice grows by [xs]. *)
Lemma read_write_behind h s arr xs :
  h !! sl_array s = Some arr →
  (sl_off s + sl_len s + length xs ≤ length arr)%nat →
  read (alter (λ a, write_at a (sl_off s + sl_len s) xs) (sl_array s) h)
       {| sl_array := sl_array s; sl_off := sl_off s;
          sl_len := sl_len s + length xs; sl_cap := sl_cap s |}
  = read h s ++ xs.
Proof.
  intros Harr Hle. unfold read. simpl.
  rewrite lookup_alter_eq, Harr. simpl. unfold write_at.
  rewrite drop_app_le by (rewrite length_take; lia).
  rewrite take_app_add'.
  2:{ rewrite length_drop, length_take. lia. }
  rewrite take_app_length.
  by rewrite take_drop_commute.
Qed.

(** [append] into a new array. *)
Lemma read_new_array h k l xs pad c :
  read (<[k := l ++ xs ++ pad]> h)
       {| sl_array := k; sl_off := 0; sl_len := length l + length xs; sl_cap := c |}
  = l ++ xs.
Proof.
  unfold read. simpl. rewrite lookup_insert_eq. simpl.
  rewrite app_assoc, <- length_app. apply take_app_length.
Qed.

End SliceFacts.

Section AppendFacts.

Context {A : Type} (zero : A) (grow : nat → nat → nat).
Hypothesis grow_enough : ∀ c n, (n ≤ grow c n)%nat.
Implicit Types (h : gmap nat (list A)) (s t : slice) (arr xs : list A).

(** What [append(s, xs...)] does for a slice [s] with room for its
    capacity in an allocated array: the result holds the elements of [s]
    and then [xs]; slices apart from [s] keep their elements and are apart
    from the result; the result again has room for its capacity. *)
Lemma append_spec h next s xs arr :
  (∀ a, is_Some (h !! a) → (a < next)%nat) →
  h !! sl_array s = Some arr →
  (sl_off s + sl_cap s ≤ length arr)%nat →
  (sl_len s ≤ sl_cap s)%nat →
  let '(h', next', s') := append zero grow h next s xs in
  read h' s' = read h s ++ xs ∧
  (∀ t, apart next s t → read h' t = read h t ∧ apart next' s' t) ∧
  (∀ a, is_Some (h' !! a) → (a < next')%nat) ∧
  (∃ arr', h' !! sl_array s' = Some arr' ∧
           (sl_off s' + sl_cap s' ≤ length arr')%nat ∧
           (sl_len s' ≤ sl_cap s')%nat) ∧
  (next ≤ next')%nat.
Proof.
  intros Hnext Harr Hcap Hlen. unfold append.
  destruct (Nat.leb_spec (sl_len s + length xs) (sl_cap s)) as [Hfits|Hfull].
  - split; [apply (read_write_behind h s arr xs Harr); lia|].
    split.
    { intros t [Hempty|[Hne Hlt]].
      - split; [by rewrite !read_empty|by left].
      - split; [by apply read_alter_other|by right]. }
    split; [intros a Ha; apply Hnext; by apply lookup_alter_is_Some in Ha|].
    split; [|done].
    exists (write_at arr (sl_off s + sl_len s) xs). simpl.
    rewrite lookup_alter_eq, Harr. split; [done|].
    rewrite length_write_at by lia. split; [done|lia].
  - assert (length (read h s) = sl_len s) as Hrl.
    { apply (read_length h s arr Harr). lia. }
    assert (sl_array s < next)%nat as Hs by (apply Hnext; by rewrite Harr).
    pose proof (grow_enough (sl_cap s) (sl_len s + length xs)) as Hgrow.
    split.
    { rewrite <- Hrl. apply read_new_array. }
    split.
    { intros t [Hempty|[Hne Hlt]].
      - split; [by rewrite !read_empty|by left].
      - split; [apply read_insert_other; lia|right; simpl; lia]. }
    split.
    { intros a Ha. apply lookup_insert_is_Some' in Ha as [<-|Ha]; [lia|].
      specialize (Hnext a Ha). lia. }
    split; [|lia].
    eexists. simpl. rewrite lookup_insert_eq. split; [done|].
    rewrite !length_app, length_replicate, Hrl. split; lia.
Qed.

(** [append(s[:0:0], xs...)], the copy idiom of [HandleEvent]: the result
    holds [xs]; every slice that is empty or points into an allocated array
    keeps its elements; and the result is empty or points into the newly
    allocated array. *)
Lemma append_copy_spec h next s xs :
  (∀ a, is_Some (h !! a) → (a < next)%nat) →
  let '(h', next', s') := append zero grow h next (reslice3 s 0 0 0) xs in
  read h' s' = xs ∧
  (∀ a, (a < next)%nat → h' !! a = h !! a) ∧
  (∀ t, sl_len t = 0%nat ∨ (sl_array t < next)%nat → read h' t = read h t) ∧
  (∀ a, is_Some (h' !! a) → (a < next')%nat) ∧
  (sl_len s' = 0%nat ∨ (sl_array s' = next ∧ next' = S next)) ∧
  (next ≤ next')%nat.
Proof.
  intros Hnext. unfold append, reslice3. simpl.
  destruct (Nat.leb_spec (length xs) 0) as [Hnone|Hsome].
  - destruct xs as [|x xs]; [|simpl in Hnone; lia].
    rewrite alter_id by (intros; apply write_at_nil).
    split; [by apply read_empty|]. split; [done|]. split; [done|]. split; [done|].
    split; [by left|done].
  - split.
    { exact (read_new_array h next [] xs _ _). }
    split.
    { intros a Ha. apply lookup_insert_ne. lia. }
    split.
    { intros t [Hempty|Hlt].
      - by rewrite !read_empty.
      - apply read_insert_other. lia. }
    split.
    { intros a Ha. apply lookup_insert_is_Some' in Ha as [<-|Ha]; [lia|].
      specialize (Hnext a Ha). lia. }
    split; [by right|lia].
Qed.

End AppendFacts.

Section SliceDispatcherFacts.

Context {Value Ctx World : Type} {clock : Clock World}.
Context (zero : Action Value Ctx World) (grow : nat → nat → nat).
Hypothesis grow_enough : ∀ c n, (n ≤ grow c n)%nat.

Implicit Types (sd : slice_dispatcher Value Ctx World).
Implicit Types (ss : slice_snapshot Value Ctx).
Implicit Types (h : gmap nat (list (Action Value Ctx World))).
Implicit Types (act : Action Value Ctx World) (s acts : slice).
Implicit Types (o : op Value Ctx World) (ops : list (op Value Ctx World)).
Implicit Types (w : World) (ctx : Ctx) (ev : Event Value) (jobId : Z).

Lemma index_of_name_lt (n : string) (l : list (Action Value Ctx World)) idx :
  index_of_name n l = Some idx → (idx < length l)%nat.
Proof.
  revert idx. induction l as [|a l IH]; intros idx; simpl; [done|].
  destruct (String.eqb n (Name a)).
  - intros [= <-]. lia.
  - destruct (index_of_name n l) as [i|]; [|done].
    intros [= <-]. specialize (IH i eq_refl). lia.
Qed.

Lemma apart_mono next next' s t :
  (next ≤ next')%nat → apart next s t → apart next' s t.
Proof. intros Hle [Hempty|[Hne Hlt]]; [by left|right; split; [done|lia]]. Qed.

(** Snapshots read the same from two heaps that agree on their slices. *)
Lemma list_snapshot_frame h h' (snaps : gmap Z (slice_snapshot Value Ctx)) :
  (∀ j ss, snaps !! j = Some ss →
           read h' (ss_actionsToProcess ss) = read h (ss_actionsToProcess ss)) →
  list_snapshot h' <$> snaps = list_snapshot h <$> snaps.
Proof.
  intros Hsame. apply map_fmap_ext. intros j ss Hss.
  unfold list_snapshot. by rewrite (Hsame j ss Hss).
Qed.

Lemma sd_New_list :
  list_dispatcher (sd_New Value Ctx World) = NewEventDispatcher Value Ctx World ∧
  sd_inv (sd_New Value Ctx World).
Proof.
  split.
  - unfold list_dispatcher, sd_New, NewEventDispatcher. simpl. by rewrite fmap_empty.
  - split; [|split].
    + simpl. intros a [x Ha]. apply lookup_singleton_Some in Ha as [<- _]. lia.
    + exists []. simpl. by rewrite lookup_singleton_eq.
    + simpl. intros j ss Hss. by rewrite lookup_empty in Hss.
Qed.

Lemma sd_registry_length sd :
  sd_inv sd → length (read (sd_heap sd) (sd_actions sd)) = sl_len (sd_actions sd).
Proof.
  intros (_ & (arr & Harr & Hcap & Hlen) & _).
  apply (read_length _ _ arr Harr). lia.
Qed.

(** [AddAction] over slices does what [AddAction] over lists does. *)
Lemma sd_AddAction_sim sd act :
  sd_inv sd →
  (sd_AddAction zero grow sd act).1 = (AddAction (list_dispatcher sd) act).1 ∧
  list_dispatcher (sd_AddAction zero grow sd act).2
  = (AddAction (list_dispatcher sd) act).2 ∧
  sd_inv (sd_AddAction zero grow sd act).2.
Proof.
  intros Hinv. pose proof Hinv as (Hnext & (arr & Harr & Hcap & Hlen) & Hsn).
  unfold sd_AddAction, AddAction. cbn [actions list_dispatcher].
  destruct (has_name _ _); [done|].
  pose proof (append_spec zero grow grow_enough (sd_heap sd) (sd_next sd)
                (sd_actions sd) [act] arr Hnext Harr Hcap Hlen) as Hsp.
  destruct (append zero grow _ _ _ _) as [[h' next'] s'].
  destruct Hsp as (Hread & Hframe & Hnext' & Hvalid & _).
  cbn [fst snd]. split; [done|]. split.
  - unfold list_dispatcher. cbn. rewrite Hread. f_equal.
    apply list_snapshot_frame. intros j ss Hss. by apply Hframe, (Hsn j ss).
  - split; [done|]. split; [done|].
    cbn. intros j ss Hss. by apply Hframe, (Hsn j ss).
Qed.

(** [RemoveAction] over slices, which shifts the tail of the registry down
    in the registry's own array, does what [RemoveAction] over lists
    does. *)
Lemma sd_RemoveAction_sim sd act :
  sd_inv sd →
  (sd_RemoveAction zero grow sd act).1 = (RemoveAction (list_dispatcher sd) act).1 ∧
  list_dispatcher (sd_RemoveAction zero grow sd act).2
  = (RemoveAction (list_dispatcher sd) act).2 ∧
  sd_inv (sd_RemoveAction zero grow sd act).2.
Proof.
  intros Hinv. pose proof Hinv as (Hnext & (arr & Harr & Hcap & Hlen) & Hsn).
  pose proof (sd_registry_length sd Hinv) as Hrl.
  unfold sd_RemoveAction, RemoveAction. cbn [actions list_dispatcher].
  destruct (index_of_name _ _) as [idx|] eqn:Hidx; [|done].
  apply index_of_name_lt in Hidx. rewrite Hrl in Hidx.
  pose proof (append_spec zero grow grow_enough (sd_heap sd) (sd_next sd)
                (reslice (sd_actions sd) 0 idx)
                (read (sd_heap sd) (reslice (sd_actions sd) (S idx) (sl_len (sd_actions sd))))
                arr Hnext Harr) as Hsp.
  destruct (append zero grow _ _ _ _) as [[h' next'] s'].
  destruct Hsp as (Hread & Hframe & Hnext' & Hvalid & _); [simpl; lia|simpl; lia|].
  cbn [fst snd]. split; [done|]. split.
  - unfold list_dispatcher. cbn. rewrite Hread.
    rewrite read_reslice_to by lia. rewrite read_reslice_from. f_equal.
    apply list_snapshot_frame. intros j ss Hss. by apply Hframe, (Hsn j ss).
  - split; [done|]. split; [done|].
    cbn. intros j ss Hss. by apply Hframe, (Hsn j ss).
Qed.

(** One attempt over a slice does what one attempt over the elements of
    that slice does, and the slice it leaves in the snapshot stays apart
    from the registry if the plan was. *)
Lemma sd_handleEventByActions_sim sd ctx ev acts jobId w :
  list_outcome (sd_handleEventByActions sd ctx ev acts jobId w)
  = handleEventByActions (list_dispatcher sd) ctx ev (read (sd_heap sd) acts) jobId w ∧
  (sd_inv sd → apart (sd_next sd) (sd_actions sd) acts →
   sd_inv (sd_handleEventByActions sd ctx ev acts jobId w).1.1.2).
Proof.
  split.
  - unfold list_outcome, sd_handleEventByActions, handleEventByActions, list_dispatcher.
    cbn. f_equal. f_equal. rewrite fmap_insert. f_equal.
    unfold list_snapshot. cbn. f_equal.
    rewrite run_actions_pending_drop.
    exact (read_reslice_from (sd_heap sd) acts _).
  - intros (Hnext & Hreg & Hsn) Hacts.
    unfold sd_handleEventByActions. cbn.
    split; [done|]. split; [done|].
    cbn. intros j ss Hss. apply lookup_insert_Some in Hss as [[_ <-]|[_ Hss]].
    + cbn. destruct Hacts as [Hempty|[Hne Hlt]].
      * left. simpl. lia.
      * right. done.
    + by apply (Hsn j ss).
Qed.

(** [HandleEvent] over slices, with its copy of the registry, does what
    [HandleEvent] over lists does. *)
Lemma sd_HandleEvent_sim sd ctx ev w :
  sd_inv sd →
  (sd_HandleEvent zero grow sd ctx ev w).1 = (HandleEvent (list_dispatcher sd) ctx ev w).1 ∧
  list_outcome (sd_HandleEvent zero grow sd ctx ev w).2
  = (HandleEvent (list_dispatcher sd) ctx ev w).2 ∧
  sd_inv (sd_HandleEvent zero grow sd ctx ev w).2.1.1.2.
Proof.
  intros (Hnext & (arr & Harr & Hcap & Hlen) & Hsn).
  assert (sl_array (sd_actions sd) < sd_next sd)%nat as Hreg
    by (apply Hnext; by rewrite Harr).
  unfold sd_HandleEvent, HandleEvent.
  pose proof (append_copy_spec zero grow (sd_heap sd) (sd_next sd) (sd_actions sd)
                (read (sd_heap sd) (sd_actions sd)) Hnext) as Hsp.
  destruct (append zero grow _ _ _ _) as [[h' next'] acts].
  destruct Hsp as (Hread & Hsame & Hframe & Hnext' & Hacts & Hle).
  cbn [fst snd]. split; [done|].
  set (sd1 := {| sd_heap := h'; sd_next := next'; sd_actions := sd_actions sd;
                 sd_currentJobId := wrap_int (sd_currentJobId sd + 1);
                 sd_snapshots := sd_snapshots sd |}).
  assert (sd_inv sd1) as Hinv1.
  { split; [done|]. split.
    - exists arr. cbn. rewrite Hsame by done. done.
    - cbn. intros j ss Hss. by apply (apart_mono (sd_next sd)), (Hsn j ss). }
  assert (apart next' (sd_actions sd) acts) as Hapart.
  { destruct Hacts as [Hempty|[Harr' ->]]; [by left|].
    right. rewrite Harr'. split; lia. }
  destruct (sd_handleEventByActions_sim sd1 ctx ev acts (sd_currentJobId sd) w)
    as [Hsim Hinv'].
  split; [|by apply Hinv'].
  rewrite Hsim. cbn [sd_heap sd1]. rewrite Hread.
  unfold handleEventByActions, list_dispatcher. cbn. f_equal. f_equal.
  - by apply Hframe; right.
  - f_equal. apply list_snapshot_frame. intros j ss Hss.
    apply Hframe. destruct (Hsn j ss Hss) as [Hempty|[_ Hlt]]; [by left|by right].
Qed.

Lemma sd_validateRetryJobId_sim sd jobId :
  sd_validateRetryJobId sd jobId = validateRetryJobId (list_dispatcher sd) jobId.
Proof.
  unfold sd_validateRetryJobId, validateRetryJobId, list_dispatcher. cbn.
  rewrite map_size_fmap, lookup_fmap.
  destruct (_ || _); [done|].
  by destruct (sd_snapshots sd !! jobId).
Qed.

(** [RetryJob] over slices does what [RetryJob] over lists does. *)
Lemma sd_RetryJob_sim sd jobId w :
  sd_inv sd →
  list_outcome <$> sd_RetryJob sd jobId w = RetryJob (list_dispatcher sd) jobId w ∧
  ∀ res, sd_RetryJob sd jobId w = Some res → sd_inv res.1.1.2.
Proof.
  intros Hinv. unfold sd_RetryJob, RetryJob.
  rewrite sd_validateRetryJobId_sim.
  destruct (validateRetryJobId _ _) as [[err|]|].
  - split; [done|]. by intros res [= <-].
  - replace (snapshots (list_dispatcher sd) !! jobId)
      with (list_snapshot (sd_heap sd) <$> (sd_snapshots sd !! jobId))
      by (unfold list_dispatcher; cbn [snapshots]; by rewrite lookup_fmap).
    destruct (sd_snapshots sd !! jobId) as [ss|] eqn:Hss; [|done].
    destruct (sd_handleEventByActions_sim sd (ss_Context ss) (ss_Event ss)
                (ss_actionsToProcess ss) jobId w) as [Hsim Hinv'].
    split; [cbn; by rewrite Hsim|].
    intros res [= <-]. apply Hinv'; [done|].
    destruct Hinv as (_ & _ & Hsn). by apply (Hsn jobId ss).
  - done.
Qed.

Lemma sd_step_sim o sd w :
  sd_inv sd →
  (λ '(r, sd', w', calls), (r, list_dispatcher sd', w', calls)) <$> sd_step zero grow o sd w
  = step o (list_dispatcher sd) w ∧
  ∀ r sd' w' calls, sd_step zero grow o sd w = Some (r, sd', w', calls) → sd_inv sd'.
Proof.
  intros Hinv. destruct o as [act|act|ctx ev|jobId|f]; cbn [sd_step step].
  - destruct (sd_AddAction_sim sd act Hinv) as (He & Hd & Hi).
    destruct (sd_AddAction zero grow sd act) as [err sd1].
    destruct (AddAction (list_dispatcher sd) act) as [err' d1].
    cbn in *. subst. split; [done|]. by intros r sd' w' calls [= <- <- <- <-].
  - destruct (sd_RemoveAction_sim sd act Hinv) as (He & Hd & Hi).
    destruct (sd_RemoveAction zero grow sd act) as [err sd1].
    destruct (RemoveAction (list_dispatcher sd) act) as [err' d1].
    cbn in *. subst. split; [done|]. by intros r sd' w' calls [= <- <- <- <-].
  - destruct (sd_HandleEvent_sim sd ctx ev w Hinv) as (Hj & Hout & Hi).
    destruct (sd_HandleEvent zero grow sd ctx ev w) as [j [[[err sd1] w1] calls1]].
    destruct (HandleEvent (list_dispatcher sd) ctx ev w) as [j' out].
    cbn in *. subst. split; [done|]. by intros r sd' w' calls [= <- <- <- <-].
  - destruct (sd_RetryJob_sim sd jobId w Hinv) as (Hout & Hi).
    destruct (sd_RetryJob sd jobId w) as [[[[err sd1] w1] calls1]|].
    + specialize (Hi _ eq_refl). rewrite <- Hout. cbn in *.
      split; [done|]. by intros r sd' w' calls [= <- <- <- <-].
    + rewrite <- Hout. done.
  - split; [done|]. by intros r sd' w' calls [= <- <- <- <-].
Qed.

(** The list model is the slice model read through the heap: from a
    dispatcher whose memory is as the operations leave it, every history
    over slices returns what the same history over lists returns and ends in
    the slice dispatcher that stands for the list dispatcher. *)
Lemma sd_run_sim ops : ∀ sd w,
  sd_inv sd →
  (λ '(rs, sd', w'), (rs, list_dispatcher sd', w')) <$> sd_run zero grow ops sd w
  = run ops (list_dispatcher sd) w.
Proof.
  induction ops as [|o ops IH]; intros sd w Hinv; [done|].
  cbn [sd_run run].
  destruct (sd_step_sim o sd w Hinv) as [Hstep Hinv'].
  destruct (sd_step zero grow o sd w) as [[[[r sd1] w1] calls1]|].
  - rewrite <- Hstep. cbn.
    rewrite <- (IH sd1 w1 (Hinv' _ _ _ _ eq_refl)).
    by destruct (sd_run zero grow ops sd1 w1) as [[[rs sd2] w2]|].
  - by rewrite <- Hstep.
Qed.

Lemma sd_run_New ops w :
  (λ '(rs, sd', w'), (rs, list_dispatcher sd', w'))
    <$> sd_run zero grow ops (sd_New Value Ctx World) w
  = run ops (NewEventDispatcher Value Ctx World) w.
Proof.
  destruct sd_New_list as [Hlist Hinv].
  rewrite <- Hlist. by apply sd_run_sim.
Qed.

Lemma sd_run_inv ops : ∀ sd w rs sd' w',
  sd_inv sd →
  sd_run zero grow ops sd w = Some (rs, sd', w') →
  sd_inv sd'.
Proof.
  induction ops as [|o ops IH]; intros sd w rs sd' w' Hinv Hrun.
  - by inversion Hrun; subst.
  - cbn [sd_run] in Hrun.
    destruct (sd_step_sim o sd w Hinv) as [_ Hinv'].
    destruct (sd_step zero grow o sd w) as [[[[r sd1] w1] calls1]|]; [|done].
    destruct (sd_run zero grow ops sd1 w1) as [[[rs2 sd2] w2]|] eqn:Hr; [|done].
    inversion Hrun; subst.
    eapply IH; [|exact Hr]. by eapply Hinv'.
Qed.

(** X15. With the registry and the pending lists as Go slices (arrays in
    memory, [append] writing in place when the capacity allows and into a
    new array otherwise), every history of calls on a new dispatcher gives
    the replies and the dispatcher that the same history gives with lists;
    and at its end the slice of every stored snapshot is empty or points
    into an array other than the registry's, so that no AddAction or
    RemoveAction can write into it. *)
Theorem slices_agree_with_lists ops w :
  (λ '(rs, sd', w'), (rs, list_dispatcher sd', w'))
    <$> sd_run zero grow ops (sd_New Value Ctx World) w
  = run ops (NewEventDispatcher Value Ctx World) w ∧
  ∀ rs sd w',
    sd_run zero grow ops (sd_New Value Ctx World) w = Some (rs, sd, w') →
    sd_inv sd.
Proof.
  split; [apply sd_run_New|].
  intros rs sd w' Hrun.
  destruct sd_New_list as [_ Hinv]. by eapply sd_run_inv.
Qed.

(** X16. RemoveAction works in the registry's own array: when it finds the
    name, the registry afterwards is a slice of the same array with the
    same capacity and one element less, nothing is allocated, and the
    array keeps its length. *)
Theorem sd_RemoveAction_in_place sd act :
  sd_inv sd →
  (sd_RemoveAction zero grow sd act).1 = None →
  sd_next (sd_RemoveAction zero grow sd act).2 = sd_next sd ∧
  sl_array (sd_actions (sd_RemoveAction zero grow sd act).2) = sl_array (sd_actions sd) ∧
  sl_off (sd_actions (sd_RemoveAction zero grow sd act).2) = sl_off (sd_actions sd) ∧
  sl_cap (sd_actions (sd_RemoveAction zero grow sd act).2) = sl_cap (sd_actions sd) ∧
  (sl_len (sd_actions (sd_RemoveAction zero grow sd act).2) + 1
   = sl_len (sd_actions sd))%nat ∧
  length <$> sd_heap (sd_RemoveAction zero grow sd act).2 !! sl_array (sd_actions sd)
  = length <$> sd_heap sd !! sl_array (sd_actions sd).
Proof.
  intros Hinv. pose proof Hinv as (Hnext & (arr & Harr & Hcap & Hlen) & Hsn).
  pose proof (sd_registry_length sd Hinv) as Hrl.
  unfold sd_RemoveAction.
  destruct (index_of_name _ _) as [idx|] eqn:Hidx; [|done].
  apply index_of_name_lt in Hidx. rewrite Hrl in Hidx. intros _.
  unfold append.
  assert (length (read (sd_heap sd)
                    (reslice (sd_actions sd) (S idx) (sl_len (sd_actions sd))))
          = (sl_len (sd_actions sd) - S idx)%nat) as Hxs.
  { rewrite read_reslice_from, length_drop. lia. }
  rewrite Hxs.
  destruct (Nat.leb_spec (sl_len (reslice (sd_actions sd) 0 idx)
                          + (sl_len (sd_actions sd) - S idx))
              (sl_cap (reslice (sd_actions sd) 0 idx))) as [_|Hfull];
    [|cbn in Hfull; lia].
  cbn. rewrite Nat.add_0_r, !Nat.sub_0_r.
  split; [done|]. split; [done|]. split; [done|]. split; [done|]. split; [lia|].
  rewrite lookup_alter_eq, Harr. cbn. f_equal.
  rewrite !length_app, !length_drop, !length_take, !length_drop. lia.
Qed.

End SliceDispatcherFacts.

(** * More about the registry and about jobs *)

Section RegistryFacts.

Context {Value Ctx World : Type} {clock : Clock World}.

Implicit Types (d : EventDispatcher Value Ctx World).
Implicit Types (a b act : Action Value Ctx World).
Implicit Types (l acts rest : list (Action Value Ctx World)).
Implicit Types (s : snapshot Value Ctx World).
Implicit Types (out : outcome Value Ctx World).
Implicit Types (o : op Value Ctx World) (ops : list (op Value Ctx World)).
Implicit Types (w : World) (ctx : Ctx) (ev : Event Value).
Implicit Types (r : reply) (rs : list reply) (jobId j : Z) (n : string).

Lemma has_name_elem n l : has_name n l = true ↔ n ∈ Name <$> l.
Proof.
  induction l as [|a l IH]; simpl.
  - split; [done|]. intros Hin. by apply elem_of_nil in Hin.
  - rewrite elem_of_cons, <- IH.
    destruct (String.eqb_spec n (Name a)) as [->|Hne]; [by split; [left|]|].
    split; [by right|]. by intros [?|?].
Qed.

Lemma has_name_not_elem n l : has_name n l = false ↔ n ∉ Name <$> l.
Proof. rewrite <- has_name_elem. by destruct (has_name n l). Qed.

(** The index [RemoveAction] finds is that of the first action with the
    name. *)
Lemma index_of_name_Some n l idx :
  index_of_name n l = Some idx →
  ∃ a, l !! idx = Some a ∧ Name a = n ∧ n ∉ Name <$> take idx l.
Proof.
  revert idx. induction l as [|b l IH]; intros idx; simpl; [done|].
  destruct (String.eqb_spec n (Name b)) as [->|Hne].
  - intros [= <-]. exists b. simpl. split; [done|]. split; [done|]. apply not_elem_of_nil.
  - destruct (index_of_name n l) as [i|]; [|done].
    intros [= <-]. destruct (IH i eq_refl) as (a & Ha & Hn & Hnot).
    exists a. simpl. split; [done|]. split; [done|].
    rewrite not_elem_of_cons. done.
Qed.

Lemma index_of_name_None n l : index_of_name n l = None ↔ n ∉ Name <$> l.
Proof.
  induction l as [|b l IH]; simpl.
  - split; [intros _; apply not_elem_of_nil|done].
  - rewrite not_elem_of_cons, <- IH.
    destruct (String.eqb_spec n (Name b)) as [->|Hne].
    + split; [done|]. by intros [? _].
    + destruct (index_of_name n l); simpl; [|done].
      split; [done|]. by intros [_ ?].
Qed.

Lemma index_of_name_fresh_end n l a :
  n ∉ Name <$> l → Name a = n → index_of_name n (l ++ [a]) = Some (length l).
Proof.
  intros Hnot Hn. induction l as [|b l IH]; simpl.
  - rewrite <- Hn, String.eqb_refl. done.
  - simpl in Hnot. apply not_elem_of_cons in Hnot as [Hne Hnot].
    destruct (String.eqb_spec n (Name b)) as [->|_]; [done|].
    by rewrite (IH Hnot).
Qed.

(** X1. AddAction returns an error exactly when an action with the same
    name is registered, and then changes nothing; otherwise it appends the
    action at the end of the registry.  Either way the job counter and the
    snapshots stay as they were. *)
Theorem AddAction_outcome d act :
  ((AddAction d act).1 = None ↔ Name act ∉ Name <$> actions d) ∧
  (Name act ∈ Name <$> actions d →
   AddAction d act
   = (Some (Errorf ("action with name " +:+ Name act +:+ " already exists")), d)) ∧
  (Name act ∉ Name <$> actions d →
   actions (AddAction d act).2 = actions d ++ [act]) ∧
  currentJobId (AddAction d act).2 = currentJobId d ∧
  snapshots (AddAction d act).2 = snapshots d.
Proof.
  unfold AddAction.
  destruct (has_name (Name act) (actions d)) eqn:Hhas.
  - apply has_name_elem in Hhas. simpl.
    split; [by split|]. split; [done|]. split; [done|]. done.
  - apply has_name_not_elem in Hhas. simpl.
    split; [by split|]. split; [done|]. done.
Qed.

Lemma RemoveAction_found d act :
  Name act ∈ Name <$> actions d →
  ∃ l1 a l2,
    actions d = l1 ++ a :: l2 ∧ Name a = Name act ∧
    (Name act ∉ Name <$> l1) ∧
    RemoveAction d act
    = (None, {| actions := l1 ++ l2;
                currentJobId := currentJobId d;
                snapshots := snapshots d |}).
Proof.
  intros Hin. unfold RemoveAction.
  destruct (index_of_name (Name act) (actions d)) as [idx|] eqn:Hidx.
  - destruct (index_of_name_Some _ _ _ Hidx) as (a & Ha & Hn & Hnot).
    exists (take idx (actions d)), a, (drop (S idx) (actions d)).
    split; [by rewrite take_drop_middle|]. done.
  - by apply index_of_name_None in Hidx.
Qed.

(** X2. RemoveAction returns an error exactly when no registered action
    has the name, and then changes nothing; otherwise it takes out the
    first action with that name and keeps the others in their order.
    Either way the job counter and the snapshots stay as they were. *)
Theorem RemoveAction_outcome d act :
  ((RemoveAction d act).1 = None ↔ Name act ∈ Name <$> actions d) ∧
  (Name act ∉ Name <$> actions d →
   RemoveAction d act
   = (Some (Errorf ("action " +:+ Name act +:+ " doesn't exist")), d)) ∧
  (Name act ∈ Name <$> actions d →
   ∃ l1 a l2,
     actions d = l1 ++ a :: l2 ∧ Name a = Name act ∧
     (Name act ∉ Name <$> l1) ∧
     actions (RemoveAction d act).2 = l1 ++ l2) ∧
  currentJobId (RemoveAction d act).2 = currentJobId d ∧
  snapshots (RemoveAction d act).2 = snapshots d.
Proof.
  destruct (decide (Name act ∈ Name <$> actions d)) as [Hin|Hnot].
  - destruct (RemoveAction_found d act Hin) as (l1 & a & l2 & Hl & Hn & Hnot1 & ->).
    simpl. split; [by split|]. split; [done|]. split; [|done].
    intros _. by exists l1, a, l2.
  - pose proof Hnot as Hnone. apply index_of_name_None in Hnone.
    unfold RemoveAction. rewrite Hnone. simpl.
    split; [by split|]. split; [done|]. split; [done|]. done.
Qed.

Lemma NoDup_middle {A} (k1 k2 : list A) (x : A) :
  NoDup (k1 ++ x :: k2) → NoDup (k1 ++ k2) ∧ (x ∉ k1) ∧ (x ∉ k2).
Proof.
  rewrite NoDup_app, NoDup_cons. intros (H1 & H2 & H3 & H4).
  split.
  - apply NoDup_app. split; [done|]. split; [|done].
    intros y Hy Hy2. apply (H2 y Hy). by right.
  - split; [|done]. intros Hx. apply (H2 x Hx). by left.
Qed.

Lemma AddAction_names_NoDup d act :
  NoDup (Name <$> actions d) → NoDup (Name <$> actions (AddAction d act).2).
Proof.
  intros Hnd. unfold AddAction.
  destruct (has_name (Name act) (actions d)) eqn:Hhas; [done|].
  apply has_name_not_elem in Hhas. simpl.
  rewrite fmap_app. apply NoDup_app. split; [done|]. split.
  - intros x Hx Hin. apply list_elem_of_singleton in Hin. by subst.
  - apply NoDup_singleton.
Qed.

Lemma RemoveAction_names_NoDup d act :
  NoDup (Name <$> actions d) → NoDup (Name <$> actions (RemoveAction d act).2).
Proof.
  intros Hnd. unfold RemoveAction.
  destruct (index_of_name (Name act) (actions d)) as [idx|] eqn:Hidx; [|done].
  destruct (index_of_name_Some _ _ _ Hidx) as (a & Ha & _).
  simpl. rewrite <- (take_drop_middle _ _ _ Ha), fmap_app, fmap_cons in Hnd.
  rewrite fmap_app. by apply NoDup_middle in Hnd as [? _].
Qed.

Lemma RetryJob_actions d jobId w out :
  RetryJob d jobId w = Some out → actions (out_disp out) = actions d.
Proof.
  unfold RetryJob.
  destruct (validateRetryJobId d jobId) as [[err|]|]; [| |done].
  { by intros [= <-]. }
  destruct (snapshots d !! jobId); [|done]. by intros [= <-].
Qed.

(** What a step does to the registry: [AddAction] and [RemoveAction] as
    above, every other call nothing. *)
Lemma step_actions o d w r d' w' calls :
  step o d w = Some (r, d', w', calls) →
  actions d' =
    match o with
    | OpAddAction act => actions (AddAction d act).2
    | OpRemoveAction act => actions (RemoveAction d act).2
    | _ => actions d
    end.
Proof.
  destruct o as [act|act|ctx ev|jobId|f]; cbn [step].
  - destruct (AddAction d act). by intros [= <- <- <- <-].
  - destruct (RemoveAction d act). by intros [= <- <- <- <-].
  - unfold HandleEvent. cbn. by intros [= <- <- <- <-].
  - destruct (RetryJob d jobId w) as [out|] eqn:Hr; [|done].
    intros [= <- <- <- <-]. by apply RetryJob_actions in Hr.
  - by intros [= <- <- <- <-].
Qed.

Lemma step_names_NoDup o d w r d' w' calls :
  NoDup (Name <$> actions d) →
  step o d w = Some (r, d', w', calls) →
  NoDup (Name <$> actions d').
Proof.
  intros Hnd Hstep. rewrite (step_actions _ _ _ _ _ _ _ Hstep).
  destruct o; [by apply AddAction_names_NoDup|by apply RemoveAction_names_NoDup|done..].
Qed.

(** A property of dispatchers that every step keeps holds at the end of
    every history. *)
Lemma run_invariant (P : EventDispatcher Value Ctx World → Prop) :
  (∀ o d w r d' w' calls, P d → step o d w = Some (r, d', w', calls) → P d') →
  ∀ ops d w rs d' w', P d → run ops d w = Some (rs, d', w') → P d'.
Proof.
  intros Hstep. induction ops as [|o ops IH]; intros d w rs d' w' HP Hrun.
  - by inversion Hrun; subst.
  - cbn [run] in Hrun.
    destruct (step o d w) as [[[[r d1] w1] calls]|] eqn:Hs; [|done].
    destruct (run ops d1 w1) as [[[rs2 d2] w2]|] eqn:Hr; [|done].
    inversion Hrun; subst.
    eapply IH; [|exact Hr]. by eapply Hstep.
Qed.

(** X3. The names in the registry are pairwise distinct after every
    history of calls on a new dispatcher. *)
Theorem registry_names_unique ops w0 rs d w :
  run ops (NewEventDispatcher Value Ctx World) w0 = Some (rs, d, w) →
  NoDup (Name <$> actions d).
Proof.
  apply (run_invariant (λ d, NoDup (Name <$> actions d))).
  - intros o d0 w1 r d1 w2 calls. apply step_names_NoDup.
  - simpl. apply NoDup_nil_2.
Qed.

(** X4. Removing an action right after it was added gives back the
    dispatcher as it was before the addition. *)
Theorem add_then_remove d act :
  (AddAction d act).1 = None →
  RemoveAction (AddAction d act).2 act = (None, d).
Proof.
  unfold AddAction.
  destruct (has_name (Name act) (actions d)) eqn:Hhas; [done|].
  intros _. apply has_name_not_elem in Hhas.
  unfold RemoveAction. simpl.
  rewrite (index_of_name_fresh_end _ _ _ Hhas eq_refl).
  rewrite take_app_length, drop_ge by (rewrite length_app; simpl; lia).
  rewrite app_nil_r. by destruct d.
Qed.

(** X5. Adding, one after the other, actions whose names are pairwise
    distinct and not yet registered succeeds for each of them and appends
    them to the registry in the order of the calls. *)
Theorem add_all_distinct l : ∀ d w,
  NoDup (Name <$> l) →
  (∀ a, a ∈ l → Name a ∉ Name <$> actions d) →
  run (OpAddAction <$> l) d w
  = Some ((λ _, ReplyError None) <$> l,
          {| actions := actions d ++ l;
             currentJobId := currentJobId d;
             snapshots := snapshots d |},
          w).
Proof.
  induction l as [|a l IH]; intros d w Hnd Hfresh.
  - simpl. rewrite app_nil_r. by destruct d.
  - rewrite fmap_cons in Hnd. apply NoDup_cons in Hnd as [Ha Hnd].
    cbn [fmap list_fmap run step].
    assert (has_name (Name a) (actions d) = false) as Hhas.
    { apply has_name_not_elem, Hfresh. by left. }
    unfold AddAction at 1. rewrite Hhas.
    rewrite IH; [|done|].
    + cbn. by rewrite <- app_assoc.
    + intros b Hb. cbn. rewrite fmap_app. apply not_elem_of_app. split.
      * apply Hfresh. by right.
      * cbn. intros Hin. apply list_elem_of_singleton in Hin.
        apply Ha. rewrite <- Hin. by apply list_elem_of_fmap_2.
Qed.

(** X6. On a registry with pairwise distinct names, a RemoveAction that
    finds the name leaves no action with that name, keeps every other name,
    and shortens the registry by one. *)
Theorem remove_frees_name d act :
  NoDup (Name <$> actions d) →
  Name act ∈ Name <$> actions d →
  (Name act ∉ Name <$> actions (RemoveAction d act).2) ∧
  (∀ n, n ≠ Name act →
        n ∈ Name <$> actions (RemoveAction d act).2 ↔ n ∈ Name <$> actions d) ∧
  (length (actions (RemoveAction d act).2) + 1 = length (actions d))%nat ∧
  (AddAction (RemoveAction d act).2 act).1 = None.
Proof.
  intros Hnd Hin.
  destruct (RemoveAction_found d act Hin) as (l1 & a & l2 & Hl & Hn & Hnot1 & ->).
  cbn [snd actions]. rewrite Hl in *.
  rewrite fmap_app, fmap_cons, Hn in Hnd.
  apply NoDup_middle in Hnd as (_ & _ & Hnot2).
  assert (Name act ∉ Name <$> l1 ++ l2) as Hfree.
  { rewrite fmap_app. by apply not_elem_of_app. }
  split; [done|]. split; [|split].
  - intros n Hne. rewrite !fmap_app, fmap_cons, !elem_of_app, elem_of_cons, Hn.
    split; [intros [?|?]; [by left|by right; right]|].
    intros [?|[?|?]]; [by left|done|by right].
  - rewrite !length_app. simpl. lia.
  - unfold AddAction. cbn [actions].
    apply has_name_not_elem in Hfree. by rewrite Hfree.
Qed.

End RegistryFacts.



Section JobFacts.

Context {Value Ctx World : Type} {clock : Clock World}.

Implicit Types (d : EventDispatcher Value Ctx World).
Implicit Types (a b act : Action Value Ctx World).
Implicit Types (l acts rest : list (Action Value Ctx World)).
Implicit Types (s : snapshot Value Ctx World).
Implicit Types (out : outcome Value Ctx World).
Implicit Types (results : list (actionResult Value)).
Implicit Types (o : op Value Ctx World) (ops : list (op Value Ctx World)).
Implicit Types (w : World) (ctx : Ctx) (ev : Event Value).
Implicit Types (r : reply) (rs : list reply) (jobId j : Z).

Lemma run_actions_err_iff ctx ev acts results w :
  att_err (run_actions ctx ev acts results w) = None ↔ all_succeed ctx ev acts w.
Proof.
  destruct (run_actions_shape ctx ev acts results w)
    as (n & Hn & _ & _ & _ & Hpre & Hend).
  destruct Hend as [(He & Hall & _)|(b & e & Hb & Hf & _ & He & _)].
  - split; [|done]. intros _ i c Hc. apply Hpre; [|done].
    rewrite Hall. by eapply lookup_lt_Some.
  - rewrite He. split; [done|].
    intros Hall. specialize (Hall _ _ Hb). unfold succeeds, fails in *. done.
Qed.

(** Every result an attempt records has the event as its input. *)
Lemma run_actions_inputs ctx ev acts : ∀ results w,
  Forall (λ x, Input x = ev) results →
  Forall (λ x, Input x = ev) (att_results (run_actions ctx ev acts results w)).
Proof.
  induction acts as [|a rest IH]; intros results w Hres; [done|].
  destruct (succeeds_or_fails ctx ev a w) as [Hok|Hko].
  - rewrite (run_actions_cons_ok _ _ _ _ _ _ Hok). cbn.
    apply IH. apply Forall_app. split; [done|]. by apply Forall_singleton.
  - by destruct (run_actions_cons_fail _ _ _ rest results _ Hko) as (e & _ & ->).
Qed.

(** X7. An execution attempt (a dispatch by HandleEvent or a retry by
    RetryJob) returns a nil error exactly when every action of its plan
    succeeds, each called in the world its predecessors left; it then has
    called the whole plan, in order, and nothing else. *)
Theorem attempt_error_iff d w ctx ev acts jobId out :
  execution_attempt d w ctx ev acts jobId out →
  (out_err out = None ↔ all_succeed ctx ev acts w) ∧
  (all_succeed ctx ev acts w →
   out_calls out = acts ∧ out_world out = world_after ctx ev acts w).
Proof.
  intros Hat.
  destruct (execution_attempt_engine _ _ _ _ _ _ _ Hat) as (He & Hw & Hc & _).
  rewrite He, Hw, Hc. split; [apply run_actions_err_iff|].
  intros Hall.
  by destruct (run_actions_all_succeed ctx ev acts [] w Hall) as (_ & _ & _ & _ & ? & ?).
Qed.

(** X8. The snapshot an execution attempt stores under its job id carries
    that id, the event and the context of the attempt; Success is true
    exactly when the attempt returned a nil error and exactly when nothing
    is pending; the names of the recorded results followed by the names of
    the pending actions are the names of the plan, in order; every result
    has the event as input; and the snapshots of all other jobs are left as
    they were. *)
Theorem attempt_stored_snapshot d w ctx ev acts jobId out :
  execution_attempt d w ctx ev acts jobId out →
  (∃ s,
    snapshots (out_disp out) !! jobId = Some s ∧
    Id s = jobId ∧ snapshot_Event s = ev ∧ snapshot_Context s = ctx ∧
    (Success s = true ↔ out_err out = None) ∧
    (Success s = true ↔ actionsToProcess s = []) ∧
    (result_Name <$> ActionsResults s) ++ (Name <$> actionsToProcess s)
      = Name <$> acts ∧
    Forall (λ x, Input x = ev) (ActionsResults s) ∧
    actionsToProcess s `suffix_of` acts) ∧
  ∀ j, j ≠ jobId → snapshots (out_disp out) !! j = snapshots d !! j.
Proof.
  intros Hat.
  destruct (execution_attempt_engine _ _ _ _ _ _ _ Hat) as (He & Hw & Hc & _ & Hs).
  rewrite Hs. split.
  - eexists. rewrite lookup_insert_eq. split; [done|]. cbn.
    pose proof (run_actions_err_pending ctx ev acts [] w) as Hep. cbv zeta in Hep.
    pose proof (run_actions_partition ctx ev acts [] w) as [_ Hnames].
    destruct (run_actions_shape ctx ev acts [] w) as (n & _ & Hpend & _).
    rewrite He. split; [done|]. split; [done|]. split; [done|].
    split; [by destruct (att_err _)|].
    split; [rewrite <- Hep; by destruct (att_err _)|].
    split; [done|].
    split; [by apply run_actions_inputs|].
    rewrite Hpend. apply suffix_drop.
  - intros j Hne. by rewrite lookup_insert_ne.
Qed.

(** X9. On a dispatcher reached by a history of calls, RetryJob of a job
    whose stored snapshot has Success = false runs the engine over the
    stored pending list with the stored context and event, under the same
    job id. *)
Theorem retry_failed_job_runs d jobId s w :
  reachable d →
  snapshots d !! jobId = Some s →
  Success s = false →
  RetryJob d jobId w
  = Some (handleEventByActions d (snapshot_Context s) (snapshot_Event s)
            (actionsToProcess s) jobId w) ∧
  execution_attempt d w (snapshot_Context s) (snapshot_Event s)
    (actionsToProcess s) jobId
    (handleEventByActions d (snapshot_Context s) (snapshot_Event s)
       (actionsToProcess s) jobId w).
Proof.
  intros Hr Hs Hko. apply reachable_wf in Hr.
  assert (validateRetryJobId d jobId = Some None) as Hv.
  { destruct (validateRetryJobId_wf d jobId Hr) as [[Hout Hv]|(s' & Hin & Hs' & Hv)].
    - exfalso. assert (is_Some (snapshots d !! jobId)) as Hsome by (by rewrite Hs).
      apply (wf_lookup _ _ Hr) in Hsome. lia.
    - rewrite Hv. rewrite Hs in Hs'. inversion Hs'; subst s'. by rewrite Hko. }
  pose proof (RetryJob_attempt d jobId s w Hs Hv) as Hrun.
  split; [done|]. by apply attempt_retry.
Qed.

(** X10. On a dispatcher reached by a history of calls, RetryJob returns
    for every job id: validateRetryJobId never looks up the Success field
    of a snapshot that is not in the store. *)
Theorem RetryJob_never_panics d jobId w :
  reachable d →
  is_Some (validateRetryJobId d jobId) ∧ is_Some (RetryJob d jobId w).
Proof.
  intros Hr. apply reachable_wf in Hr.
  destruct (RetryJob_wf d jobId w Hr) as (out & Hout & _).
  split; [|by rewrite Hout].
  destruct (validateRetryJobId_wf d jobId Hr) as [[_ ->]|(s & _ & _ & ->)]; [done|].
  by destruct (Success s).
Qed.

(** ** Stored snapshots along a history *)

Lemma handleEventByActions_snapshots d ctx ev acts jobId w :
  ∃ s,
    snapshots (out_disp (handleEventByActions d ctx ev acts jobId w))
    = <[jobId := s]> (snapshots d) ∧
    Id s = jobId ∧ snapshot_Event s = ev ∧ snapshot_Context s = ctx ∧
    (Success s = true ↔ actionsToProcess s = []) ∧
    actionsToProcess s `suffix_of` acts.
Proof.
  unfold handleEventByActions. cbn. eexists. split; [done|]. cbn.
  split; [done|]. split; [done|]. split; [done|].
  pose proof (run_actions_err_pending ctx ev acts [] w) as Hep. cbv zeta in Hep.
  destruct (run_actions_shape ctx ev acts [] w) as (n & _ & Hpend & _).
  split; [rewrite <- Hep; by destruct (att_err _)|].
  rewrite Hpend. apply suffix_drop.
Qed.

(** A job that [validateRetryJobId] lets through has a stored snapshot
    with Success = false. *)
Lemma validateRetryJobId_pass d jobId :
  validateRetryJobId d jobId = Some None →
  ∃ s, snapshots d !! jobId = Some s ∧ Success s = false.
Proof.
  unfold validateRetryJobId. destruct (_ || _); [done|].
  destruct (snapshots d !! jobId) as [s|]; [|done].
  destruct (Success s) eqn:Hs; [done|]. intros _. by exists s.
Qed.

(** What a step does to the snapshot store: nothing, or one snapshot put
    under the job id of the step's attempt. *)
Lemma step_snapshots o d w r d' w' calls :
  step o d w = Some (r, d', w', calls) →
  snapshots d' = snapshots d ∨
  ∃ jobId ctx ev acts s,
    snapshots d' = <[jobId := s]> (snapshots d) ∧
    Id s = jobId ∧ snapshot_Event s = ev ∧ snapshot_Context s = ctx ∧
    (Success s = true ↔ actionsToProcess s = []) ∧
    actionsToProcess s `suffix_of` acts ∧
    ((o = OpHandleEvent ctx ev ∧ jobId = currentJobId d ∧ acts = actions d) ∨
     (o = OpRetryJob jobId ∧
      ∃ s0, snapshots d !! jobId = Some s0 ∧ Success s0 = false ∧
            ev = snapshot_Event s0 ∧ ctx = snapshot_Context s0 ∧
            acts = actionsToProcess s0)).
Proof.
  destruct o as [act|act|ctx ev|jobId|f]; cbn [step].
  - destruct (AddAction_frame d act) as [_ Hs].
    destruct (AddAction d act). intros [= <- <- <- <-]. by left.
  - destruct (RemoveAction_frame d act) as [_ Hs].
    destruct (RemoveAction d act). intros [= <- <- <- <-]. by left.
  - destruct (handleEventByActions_snapshots
                {| actions := actions d;
                   currentJobId := wrap_int (currentJobId d + 1);
                   snapshots := snapshots d |}
                ctx ev (actions d) (currentJobId d) w)
      as (s & Hs & HId & Hev & Hctx & Hok & Hsuf).
    unfold HandleEvent. cbn [fst snd]. intros [= <- <- <- <-]. right.
    exists (currentJobId d), ctx, ev, (actions d), s.
    split; [exact Hs|]. split; [done|]. split; [done|]. split; [done|].
    split; [done|]. split; [done|]. by left.
  - destruct (RetryJob d jobId w) as [out|] eqn:Hr; [|done].
    intros [= <- <- <- <-]. unfold RetryJob in Hr.
    destruct (validateRetryJobId d jobId) as [[err|]|] eqn:Hv; [| |done].
    { injection Hr as <-. by left. }
    destruct (validateRetryJobId_pass d jobId Hv) as (s0 & Hs0 & Hko).
    rewrite Hs0 in Hr. injection Hr as <-. right.
    destruct (handleEventByActions_snapshots d (snapshot_Context s0) (snapshot_Event s0)
                (actionsToProcess s0) jobId w) as (s & Hs & HId & Hev & Hctx & Hok & Hsuf).
    exists jobId, (snapshot_Context s0), (snapshot_Event s0), (actionsToProcess s0), s.
    split; [exact Hs|]. split; [done|]. split; [done|]. split; [done|].
    split; [done|]. split; [done|]. right. split; [done|]. by exists s0.
  - intros [= <- <- <- <-]. by left.
Qed.

(** X11. In every dispatcher that a history of calls on a new dispatcher
    leads to, each stored snapshot carries the job id it is stored under,
    and its Success is true exactly when its pending list is empty. *)
Theorem stored_snapshots_consistent ops w0 rs d w j s :
  run ops (NewEventDispatcher Value Ctx World) w0 = Some (rs, d, w) →
  snapshots d !! j = Some s →
  Id s = j ∧ (Success s = true ↔ actionsToProcess s = []).
Proof.
  intros Hrun. revert j s.
  apply (run_invariant
           (λ d, ∀ j s, snapshots d !! j = Some s →
                        Id s = j ∧ (Success s = true ↔ actionsToProcess s = []))
           ) with (ops := ops) (d := NewEventDispatcher Value Ctx World)
                  (w := w0) (rs := rs) (w' := w); [| |exact Hrun].
  - intros o d0 w1 r d1 w2 calls HP Hstep j s Hs.
    destruct (step_snapshots _ _ _ _ _ _ _ Hstep)
      as [Heq|(jobId & ctx & ev & acts & s1 & Heq & HId & _ & _ & Hok & _)];
      rewrite Heq in Hs; [by apply HP|].
    apply lookup_insert_Some in Hs as [[<- <-]|[_ Hs]]; [done|by apply HP].
  - intros j s Hs. cbn in Hs. by rewrite lookup_empty in Hs.
Qed.

Lemma job_continues_refl s : job_continues s s.
Proof. by split; [|split; [|split]]. Qed.

Lemma job_continues_trans s1 s2 s3 :
  job_continues s1 s2 → job_continues s2 s3 → job_continues s1 s3.
Proof.
  intros (He1 & Hc1 & Hs1 & Hf1) (He2 & Hc2 & Hs2 & Hf2).
  split; [congruence|]. split; [congruence|]. split; [by etrans|].
  intros Hok. specialize (Hf1 Hok). subst s2. by apply Hf2.
Qed.

(** A step of a well-formed dispatcher keeps every stored job, and
    continues it. *)
Lemma step_continues o d w r d' w' calls j s :
  wf d →
  snapshots d !! j = Some s →
  step o d w = Some (r, d', w', calls) →
  ∃ s', snapshots d' !! j = Some s' ∧ job_continues s s'.
Proof.
  intros Hwf Hs Hstep.
  destruct (step_snapshots _ _ _ _ _ _ _ Hstep)
    as [Heq|(jobId & ctx & ev & acts & s1 & Heq & _ & Hev & Hctx & _ & Hsuf & Hwhich)];
    rewrite Heq.
  { exists s. split; [done|apply job_continues_refl]. }
  destruct (decide (jobId = j)) as [->|Hne].
  - rewrite lookup_insert_eq. exists s1. split; [done|].
    destruct Hwhich as [(_ & Hj & _)|(_ & s0 & Hs0 & Hko & -> & -> & ->)].
    + exfalso. assert (is_Some (snapshots d !! j)) as Hsome by (by rewrite Hs).
      apply (wf_lookup _ _ Hwf) in Hsome. lia.
    + rewrite Hs in Hs0. injection Hs0 as <-.
      split; [done|]. split; [done|]. split; [done|]. intros Hok. congruence.
  - rewrite lookup_insert_ne by done. exists s. split; [done|apply job_continues_refl].
Qed.

Lemma run_continues ops : ∀ d w rs d' w' j s,
  wf d →
  (currentJobId d + Z.of_nat (handle_count ops) ≤ int_max)%Z →
  snapshots d !! j = Some s →
  run ops d w = Some (rs, d', w') →
  ∃ s', snapshots d' !! j = Some s' ∧ job_continues s s'.
Proof.
  induction ops as [|o ops IH]; intros d w rs d' w' j s Hwf Hb Hs Hrun.
  - inversion Hrun; subst. exists s. split; [done|apply job_continues_refl].
  - rewrite handle_count_cons in Hb. cbn [run] in Hrun.
    destruct (step_wf o d w Hwf) as (r & d1 & w1 & calls & Hstep & Hwf1 & Hc1 & _);
      [lia|].
    rewrite Hstep in Hrun.
    destruct (run ops d1 w1) as [[[rs2 d2] w2]|] eqn:Hr; [|done].
    inversion Hrun; subst.
    destruct (step_continues _ _ _ _ _ _ _ _ _ Hwf Hs Hstep) as (s1 & Hs1 & Hc).
    destruct (IH _ _ _ _ _ _ _ Hwf1 ltac:(lia) Hs1 Hr) as (s2 & Hs2 & Hc').
    exists s2. split; [done|]. by eapply job_continues_trans.
Qed.

(** X12. A job whose stored snapshot has Success = true is final: whatever
    calls follow, its snapshot stays exactly as it is. *)
Theorem succeeded_job_is_final ops d w rs d' w' j s :
  wf d →
  (currentJobId d + Z.of_nat (handle_count ops) ≤ int_max)%Z →
  snapshots d !! j = Some s →
  Success s = true →
  run ops d w = Some (rs, d', w') →
  snapshots d' !! j = Some s.
Proof.
  intros Hwf Hb Hs Hok Hrun.
  destruct (run_continues ops _ _ _ _ _ _ _ Hwf Hb Hs Hrun) as (s' & Hs' & _ & _ & _ & Hfin).
  by rewrite Hs', (Hfin Hok).
Qed.

(** X13. Whatever calls follow, a stored job stays in the store with the
    event and the context it was dispatched with, and its pending list
    only loses actions from the front: the later pending list is a final
    part of the earlier one. *)
Theorem job_only_progresses ops d w rs d' w' j s :
  wf d →
  (currentJobId d + Z.of_nat (handle_count ops) ≤ int_max)%Z →
  snapshots d !! j = Some s →
  run ops d w = Some (rs, d', w') →
  ∃ s',
    snapshots d' !! j = Some s' ∧
    snapshot_Event s' = snapshot_Event s ∧
    snapshot_Context s' = snapshot_Context s ∧
    actionsToProcess s' `suffix_of` actionsToProcess s.
Proof.
  intros Hwf Hb Hs Hrun.
  destruct (run_continues ops _ _ _ _ _ _ _ Hwf Hb Hs Hrun)
    as (s' & Hs' & He & Hc & Hsuf & _).
  by exists s'.
Qed.

(** ** The registry along a history *)

Lemma AddAction_actions_ext d1 d2 act :
  actions d1 = actions d2 →
  (AddAction d1 act).1 = (AddAction d2 act).1 ∧
  actions (AddAction d1 act).2 = actions (AddAction d2 act).2.
Proof.
  intros Heq. unfold AddAction. rewrite Heq.
  by destruct (has_name _ _); cbn; rewrite ?Heq.
Qed.

Lemma RemoveAction_actions_ext d1 d2 act :
  actions d1 = actions d2 →
  (RemoveAction d1 act).1 = (RemoveAction d2 act).1 ∧
  actions (RemoveAction d1 act).2 = actions (RemoveAction d2 act).2.
Proof.
  intros Heq. unfold RemoveAction. rewrite Heq.
  by destruct (index_of_name _ _); cbn; rewrite ?Heq.
Qed.

Lemma run_registry_only ops : ∀ d1 d2 w1 w2 rs d1' w1',
  actions d1 = actions d2 →
  run ops d1 w1 = Some (rs, d1', w1') →
  ∃ rs2 d2',
    run (List.filter registry_op ops) d2 w2 = Some (rs2, d2', w2) ∧
    actions d2' = actions d1'.
Proof.
  induction ops as [|o ops IH]; intros d1 d2 w1 w2 rs d1' w1' Heq Hrun.
  - inversion Hrun; subst. by exists [], d2.
  - cbn [run] in Hrun.
    destruct (step o d1 w1) as [[[[r d3] w3] calls]|] eqn:Hstep; [|done].
    destruct (run ops d3 w3) as [[[rs3 d4] w4]|] eqn:Hr; [|done].
    inversion Hrun; subst.
    pose proof (step_actions _ _ _ _ _ _ _ Hstep) as Hact.
    destruct o as [act|act|ctx ev|jobId|f]; cbn [List.filter registry_op].
    + destruct (AddAction_actions_ext d1 d2 act Heq) as [_ Hext].
      destruct (IH d3 (AddAction d2 act).2 w3 w2 _ _ _ ltac:(congruence) Hr)
        as (rs2 & d2' & Hrun2 & Hacts).
      cbn [run step]. destruct (AddAction d2 act) as [err dd]. cbn in *.
      rewrite Hrun2. by eexists _, _.
    + destruct (RemoveAction_actions_ext d1 d2 act Heq) as [_ Hext].
      destruct (IH d3 (RemoveAction d2 act).2 w3 w2 _ _ _ ltac:(congruence) Hr)
        as (rs2 & d2' & Hrun2 & Hacts).
      cbn [run step]. destruct (RemoveAction d2 act) as [err dd]. cbn in *.
      rewrite Hrun2. by eexists _, _.
    + apply (IH d3 d2 w3 w2 _ _ _ ltac:(congruence) Hr).
    + apply (IH d3 d2 w3 w2 _ _ _ ltac:(congruence) Hr).
    + apply (IH d3 d2 w3 w2 _ _ _ ltac:(congruence) Hr).
Qed.

(** X14. HandleEvent and RetryJob never change the registry: after a
    history of calls the registry is the one that the AddAction and
    RemoveAction calls of the history, made alone and in the same order,
    lead to. *)
Theorem registry_ignores_jobs ops d w rs d' w' :
  run ops d w = Some (rs, d', w') →
  ∃ rs2 d2,
    run (List.filter registry_op ops) d w = Some (rs2, d2, w) ∧
    actions d2 = actions d'.
Proof. intros Hrun. by apply (run_registry_only ops d d w w rs d' w'). Qed.

End JobFacts.

(** * The properties on the test fixtures *)

Lemma buildDispatcher_actions :
  actions buildDispatcher = [actionStraightCheck; actionDivider].
Proof. reflexivity. Qed.

Lemma zero_divider_second_fails :
  kth_fails background ev_10_0 (actions buildDispatcher) world0 2 actionDivider.
Proof.
  split; [lia|]. split; [reflexivity|]. split.
  - intros [|i] b Hi Hb; [|simpl in Hi; lia].
    injection Hb as <-. reflexivity.
  - unfold fails. vm_compute. discriminate.
Defined.

Lemma failing_retry_first_fails :
  kth_fails background ev_10_5 [actionStraightCheck] world_err 1 actionStraightCheck.
Proof.
  split; [lia|]. split; [reflexivity|]. split.
  - intros i b Hi. simpl in Hi. lia.
  - unfold fails. vm_compute. discriminate.
Defined.

Lemma failing_retry_is_attempt :
  execution_attempt (out_disp half_done_job0.2) world_err
    (snapshot_Context half_done_snapshot) (snapshot_Event half_done_snapshot)
    (actionsToProcess half_done_snapshot) 0 failing_retry_job0.
Proof. apply attempt_retry; reflexivity. Defined.

Lemma failed_attempt_snapshot_witness :
  kth_fails background ev_10_0 (actions buildDispatcher) world0 2 actionDivider ∧
  (∃ s,
    snapshots (out_disp zero_divider_job0.2) !! zero_divider_job0.1 = Some s ∧
    Success s = false ∧
    length (ActionsResults s) = (2 - 1)%nat ∧
    result_Name <$> ActionsResults s = Name <$> take (2 - 1) (actions buildDispatcher) ∧
    actionsToProcess s = drop (2 - 1) (actions buildDispatcher) ∧
    head (actionsToProcess s) = Some actionDivider ∧
    out_calls zero_divider_job0.2 = take 2 (actions buildDispatcher) ∧
    out_world zero_divider_job0.2
      = world_after background ev_10_0 (take 2 (actions buildDispatcher)) world0 ∧
    ∃ e, out_err zero_divider_job0.2
         = Some (Errorf (Name actionDivider +:+ " action failed: " +:+ error_msg e))) ∧
  kth_fails background ev_10_5 [actionStraightCheck] world_err 1 actionStraightCheck ∧
  (∃ s,
    snapshots (out_disp failing_retry_job0) !! 0%Z = Some s ∧
    Success s = false ∧
    length (ActionsResults s) = 0%nat ∧
    head (actionsToProcess s) = Some actionStraightCheck ∧
    out_calls failing_retry_job0 = [actionStraightCheck]).
Proof.
  split; [exact zero_divider_second_fails|]. split.
  { apply (failed_attempt_snapshot buildDispatcher world0 background ev_10_0
             (actions buildDispatcher) zero_divider_job0.1 zero_divider_job0.2
             2 actionDivider).
    - apply attempt_dispatch.
    - exact zero_divider_second_fails. }
  split; [exact failing_retry_first_fails|].
  destruct (failed_attempt_snapshot _ _ _ _ _ _ _ 1 actionStraightCheck
              failing_retry_is_attempt failing_retry_first_fails)
    as (s & Hs & Hfalse & Hlen & _ & _ & Hhead & Hcalls & _).
  exists s. split; [exact Hs|]. split; [exact Hfalse|]. split; [exact Hlen|].
  split; [exact Hhead|exact Hcalls].
Defined.

Lemma history_job0_run :
  run history_job0 (NewEventDispatcher dyn unit test_world) world0
  = Some ([ReplyError None; ReplyError None; ReplyJob 0 None], after_job0, world0).
Proof. reflexivity. Defined.

Lemma after_job0_reachable : reachable after_job0.
Proof.
  exists history_job0, world0, [ReplyError None; ReplyError None; ReplyJob 0 None], world0.
  split; [by vm_compute|exact history_job0_run].
Defined.

Lemma after_job0_snapshot : snapshots after_job0 !! 0%Z = Some job0_snapshot.
Proof. reflexivity. Defined.

Lemma job_ids_consecutive_witness :
  (Z.of_nat (handle_count history_immutability) ≤ int_max)%Z ∧
  ∃ rs d w,
    run history_immutability (NewEventDispatcher dyn unit test_world) world0
      = Some (rs, d, w) ∧
    job_ids rs = seqZ 0 (Z.of_nat (handle_count history_immutability)) ∧
    NoDup (job_ids rs) ∧
    currentJobId d = Z.of_nat (handle_count history_immutability) ∧
    ∀ (d' : EventDispatcher dyn unit test_world) jobId w' out,
      RetryJob d' jobId w' = Some out → currentJobId (out_disp out) = currentJobId d'.
Proof.
  split; [by vm_compute|].
  apply (job_ids_consecutive history_immutability world0). by vm_compute.
Defined.

Lemma retry_succeeded_job_witness :
  reachable after_job0 ∧
  snapshots after_job0 !! 0%Z = Some job0_snapshot ∧
  Success job0_snapshot = true ∧
  RetryJob after_job0 0 world_err
  = Some (mkOutcome (Some ErrorSucceededJobRetryCall) after_job0 world_err []).
Proof.
  split; [exact after_job0_reachable|].
  split; [exact after_job0_snapshot|].
  split; [reflexivity|].
  apply (retry_succeeded_job after_job0 0 job0_snapshot world_err).
  - exact after_job0_reachable.
  - exact after_job0_snapshot.
  - reflexivity.
Defined.

Lemma retry_invalid_job_witness :
  RetryJob after_job0 (-1) world0
  = Some (mkOutcome (Some ErrorInvalidJobId) after_job0 world0 []) ∧
  RetryJob after_job0 1 world0
  = Some (mkOutcome (Some ErrorInvalidJobId) after_job0 world0 []).
Proof.
  split.
  - apply (retry_invalid_job history_job0 world0
             [ReplyError None; ReplyError None; ReplyJob 0 None] after_job0 world0).
    + by vm_compute.
    + exact history_job0_run.
    + left. lia.
  - apply (retry_invalid_job history_job0 world0
             [ReplyError None; ReplyError None; ReplyJob 0 None] after_job0 world0).
    + by vm_compute.
    + exact history_job0_run.
    + right. simpl. intros Hin. apply list_elem_of_singleton in Hin. lia.
Defined.

Lemma snapshot_store_keys_witness :
  (Z.of_nat (handle_count history_immutability) ≤ int_max)%Z ∧
  ∃ rs d w,
    run history_immutability (NewEventDispatcher dyn unit test_world) world0
      = Some (rs, d, w) ∧
    dom (snapshots d) = list_to_set (C := gset Z) (seqZ 0 (currentJobId d)) ∧
    Z.of_nat (size (snapshots d)) = currentJobId d ∧
    (∀ j, j ∈ dom (snapshots d) ↔ j ∈ job_ids rs) ∧
    (∀ (d' : EventDispatcher dyn unit test_world) ctx ev w',
       dom (snapshots (out_disp (HandleEvent d' ctx ev w').2))
         = {[ (HandleEvent d' ctx ev w').1 ]} ∪ dom (snapshots d')) ∧
    (∀ (d' : EventDispatcher dyn unit test_world) jobId w' out,
       RetryJob d' jobId w' = Some out →
       dom (snapshots (out_disp out)) = dom (snapshots d')).
Proof.
  split; [by vm_compute|].
  apply (snapshot_store_keys history_immutability world0). by vm_compute.
Defined.

(** ** Registry changes after a failed dispatch *)

Lemma failed_job1_snapshot :
  snapshots (out_disp failed_job1.2) !! 1%Z = Some job1_failed_snapshot.
Proof. reflexivity. Defined.



(** ** Nil events on the fixtures *)



(** C5 on the code: a nil event is not rejected.  On a dispatcher with no
    action, or with an action that does not look at its input, HandleEvent
    returns a nil error for a nil event and stores a successful snapshot;
    with the registry of the tests the error of [TestNilEventPassing] is the
    one [actionDivider] returns for a missing key, after
    [actionStraightCheck] has been called. *)
Theorem nil_event_not_rejected :
  out_err (HandleEvent (NewEventDispatcher dyn unit test_world) background None world0).2
  = None ∧
  snapshot_shape <$>
    snapshots (out_disp
      (HandleEvent (NewEventDispatcher dyn unit test_world) background None world0).2) !! 0%Z
  = Some (true, [], []) ∧
  out_err (HandleEvent emptyOnly background None world0).2 = None ∧
  out_calls (HandleEvent emptyOnly background None world0).2 = [actionEnpty] ∧
  out_err nil_event_job0.2 = Some (Errorf "divider action failed: no dividend passed") ∧
  out_calls nil_event_job0.2 = [actionStraightCheck; actionDivider].
Proof. repeat split; reflexivity. Qed.

(** ** Retrying a job that had completed some actions *)

Lemma half_done_job0_snapshot :
  snapshots (out_disp half_done_job0.2) !! 0%Z = Some half_done_snapshot.
Proof. reflexivity. Qed.

(** C2 on the code: the dispatch over [actionDivider; actionStraightCheck]
    records the result of [actionDivider] and leaves [actionStraightCheck]
    pending; the retry stores a snapshot that holds the result of
    [actionStraightCheck] alone.  Two actions were planned; results plus
    pending actions number two after the dispatch and one after the
    retry. *)
Theorem retry_forgets_recorded_results :
  length (actions dividerFirst) = 2%nat ∧
  snapshot_shape <$> snapshots (out_disp half_done_job0.2) !! 0%Z
  = Some (false, [actionDividerName], [actionStraightCheckName]) ∧
  (λ out, (out_err out, snapshot_shape <$> snapshots (out_disp out) !! 0%Z))
    <$> RetryJob (out_disp half_done_job0.2) half_done_job0.1 world0
  = Some (None, Some (true, [actionStraightCheckName], [])).
Proof. repeat split; reflexivity. Qed.

(** C3 on the code: that retry is an execution attempt all of whose actions
    succeed; the snapshot it stores has Success = true and nothing pending,
    and one action result, where two actions were registered when the job
    was dispatched. *)
Theorem retry_success_misses_results :
  length (actions dividerFirst) = 2%nat ∧
  ∃ out s,
    execution_attempt (out_disp half_done_job0.2) world0
      (snapshot_Context half_done_snapshot) (snapshot_Event half_done_snapshot)
      (actionsToProcess half_done_snapshot) 0 out ∧
    all_succeed (snapshot_Context half_done_snapshot) (snapshot_Event half_done_snapshot)
      (actionsToProcess half_done_snapshot) world0 ∧
    snapshots (out_disp out) !! 0%Z = Some s ∧
    Success s = true ∧
    actionsToProcess s = [] ∧
    length (ActionsResults s) = 1%nat.
Proof.
  split; [reflexivity|].
  eexists _, _. split.
  { apply attempt_retry; [exact half_done_job0_snapshot|reflexivity|reflexivity]. }
  split.
  { intros [|i] b Hb; [|done]. injection Hb as <-. reflexivity. }
  split; [reflexivity|]. split; [reflexivity|]. split; reflexivity.
Qed.

(** ** The registry's array and a snapshot's array

    After two AddAction calls, a failed dispatch and the removal of the
    first action, the registry is a slice of length 1 over the array at
    address 2, whose cells RemoveAction has shifted; the snapshot of job 0
    points into the copy at address 3 and still reads both actions. *)
Lemma remove_shifts_registry_array :
  memory_view <$> slices_after_remove
  = Some (mkSlice 2 0 1 2,
          [ Some [];
            Some [actionStraightCheckName];
            Some [actionDividerName; actionDividerName];
            Some [actionStraightCheckName; actionDividerName] ],
          Some (mkSlice 3 0 2 2),
          [actionDividerName],
          Some [actionStraightCheckName; actionDividerName]).
Proof. reflexivity. Qed.

(** ** The registry and the jobs of the fixtures *)

Lemma fixture_names_distinct :
  NoDup (Name <$> [actionStraightCheck; actionDivider]).
Proof.
  apply NoDup_cons. split; [|apply NoDup_singleton].
  intros Hin. apply list_elem_of_singleton in Hin. discriminate Hin.
Defined.

Lemma registry_names_unique_witness :
  run history_job0 (NewEventDispatcher dyn unit test_world) world0
  = Some ([ReplyError None; ReplyError None; ReplyJob 0 None], after_job0, world0) ∧
  NoDup (Name <$> actions after_job0).
Proof.
  split; [exact history_job0_run|].
  exact (registry_names_unique history_job0 world0 _ after_job0 world0 history_job0_run).
Defined.

Lemma add_then_remove_witness :
  (AddAction buildDispatcher actionEnpty).1 = None ∧
  RemoveAction (AddAction buildDispatcher actionEnpty).2 actionEnpty
  = (None, buildDispatcher).
Proof.
  split; [reflexivity|].
  apply (add_then_remove buildDispatcher actionEnpty). reflexivity.
Defined.

Lemma add_all_distinct_witness :
  run (OpAddAction <$> [actionStraightCheck; actionDivider])
    (NewEventDispatcher dyn unit test_world) world0
  = Some ((λ _, ReplyError None) <$> [actionStraightCheck; actionDivider],
          {| actions := actions (NewEventDispatcher dyn unit test_world)
                        ++ [actionStraightCheck; actionDivider];
             currentJobId := currentJobId (NewEventDispatcher dyn unit test_world);
             snapshots := snapshots (NewEventDispatcher dyn unit test_world) |},
          world0).
Proof.
  apply (add_all_distinct [actionStraightCheck; actionDivider]
           (NewEventDispatcher dyn unit test_world) world0).
  - exact fixture_names_distinct.
  - intros a _. apply not_elem_of_nil.
Defined.

Lemma remove_frees_name_witness :
  NoDup (Name <$> actions buildDispatcher) ∧
  Name actionDivider ∈ Name <$> actions buildDispatcher ∧
  (Name actionDivider ∉ Name <$> actions (RemoveAction buildDispatcher actionDivider).2) ∧
  (∀ n, n ≠ Name actionDivider →
        n ∈ Name <$> actions (RemoveAction buildDispatcher actionDivider).2
        ↔ n ∈ Name <$> actions buildDispatcher) ∧
  (length (actions (RemoveAction buildDispatcher actionDivider).2) + 1
   = length (actions buildDispatcher))%nat ∧
  (AddAction (RemoveAction buildDispatcher actionDivider).2 actionDivider).1 = None.
Proof.
  assert (Name actionDivider ∈ Name <$> actions buildDispatcher) as Hin.
  { apply list_elem_of_further, list_elem_of_here. }
  split; [exact fixture_names_distinct|]. split; [exact Hin|].
  exact (remove_frees_name buildDispatcher actionDivider fixture_names_distinct Hin).
Defined.

Lemma attempt_error_iff_witness :
  (out_err zero_divider_job0.2 = None
   ↔ all_succeed background ev_10_0 (actions buildDispatcher) world0) ∧
  (all_succeed background ev_10_0 (actions buildDispatcher) world0 →
   out_calls zero_divider_job0.2 = actions buildDispatcher ∧
   out_world zero_divider_job0.2
   = world_after background ev_10_0 (actions buildDispatcher) world0).
Proof.
  apply (attempt_error_iff buildDispatcher world0 background ev_10_0
           (actions buildDispatcher) zero_divider_job0.1 zero_divider_job0.2).
  apply attempt_dispatch.
Defined.

Lemma attempt_stored_snapshot_witness :
  (∃ s,
    snapshots (out_disp failing_retry_job0) !! 0%Z = Some s ∧
    Id s = 0%Z ∧
    snapshot_Event s = snapshot_Event half_done_snapshot ∧
    snapshot_Context s = snapshot_Context half_done_snapshot ∧
    (Success s = true ↔ out_err failing_retry_job0 = None) ∧
    (Success s = true ↔ actionsToProcess s = []) ∧
    (result_Name <$> ActionsResults s) ++ (Name <$> actionsToProcess s)
      = Name <$> actionsToProcess half_done_snapshot ∧
    Forall (λ x, Input x = snapshot_Event half_done_snapshot) (ActionsResults s) ∧
    actionsToProcess s `suffix_of` actionsToProcess half_done_snapshot) ∧
  ∀ j, j ≠ 0%Z →
       snapshots (out_disp failing_retry_job0) !! j
       = snapshots (out_disp half_done_job0.2) !! j.
Proof.
  exact (attempt_stored_snapshot _ _ _ _ _ _ _ failing_retry_is_attempt).
Defined.

Lemma history_job1_failed_run :
  run history_job1_failed (NewEventDispatcher dyn unit test_world) world0
  = Some ([ReplyError None; ReplyError None; ReplyJob 0 None; ReplyNothing;
           ReplyJob 1 (Some (Errorf "straight_check action failed: an error"))],
          out_disp failed_job1.2, world_err).
Proof. reflexivity. Defined.

Lemma failed_job1_reachable : reachable (out_disp failed_job1.2).
Proof.
  eexists history_job1_failed, world0, _, world_err.
  split; [by vm_compute|exact history_job1_failed_run].
Defined.

Lemma retry_failed_job_runs_witness :
  reachable (out_disp failed_job1.2) ∧
  snapshots (out_disp failed_job1.2) !! 1%Z = Some job1_failed_snapshot ∧
  Success job1_failed_snapshot = false ∧
  RetryJob (out_disp failed_job1.2) 1 world0
  = Some (handleEventByActions (out_disp failed_job1.2)
            (snapshot_Context job1_failed_snapshot)
            (snapshot_Event job1_failed_snapshot)
            (actionsToProcess job1_failed_snapshot) 1 world0) ∧
  execution_attempt (out_disp failed_job1.2) world0
    (snapshot_Context job1_failed_snapshot) (snapshot_Event job1_failed_snapshot)
    (actionsToProcess job1_failed_snapshot) 1
    (handleEventByActions (out_disp failed_job1.2)
       (snapshot_Context job1_failed_snapshot)
       (snapshot_Event job1_failed_snapshot)
       (actionsToProcess job1_failed_snapshot) 1 world0).
Proof.
  split; [exact failed_job1_reachable|].
  split; [exact failed_job1_snapshot|].
  split; [reflexivity|].
  exact (retry_failed_job_runs (out_disp failed_job1.2) 1 job1_failed_snapshot world0
           failed_job1_reachable failed_job1_snapshot eq_refl).
Defined.

Lemma RetryJob_never_panics_witness :
  is_Some (validateRetryJobId after_job0 7) ∧ is_Some (RetryJob after_job0 7 world0).
Proof. exact (RetryJob_never_panics after_job0 7 world0 after_job0_reachable). Defined.

Lemma stored_snapshots_consistent_witness :
  Id job0_snapshot = 0%Z ∧
  (Success job0_snapshot = true ↔ actionsToProcess job0_snapshot = []).
Proof.
  exact (stored_snapshots_consistent history_job0 world0 _ after_job0 world0 0
           job0_snapshot history_job0_run after_job0_snapshot).
Defined.

Lemma failed_job1_wf : wf (out_disp failed_job1.2).
Proof. exact (reachable_wf _ failed_job1_reachable). Defined.

Lemma failed_job1_keeps_job0 :
  snapshots (out_disp failed_job1.2) !! 0%Z = Some job0_snapshot.
Proof. reflexivity. Defined.

Lemma succeeded_job_is_final_witness :
  ∃ rs d' w',
    run later_calls (out_disp failed_job1.2) world_err = Some (rs, d', w') ∧
    snapshots d' !! 0%Z = Some job0_snapshot.
Proof.
  eexists _, _, _. split; [reflexivity|].
  eapply (succeeded_job_is_final later_calls (out_disp failed_job1.2) world_err
            _ _ _ 0 job0_snapshot).
  - exact failed_job1_wf.
  - by vm_compute.
  - exact failed_job1_keeps_job0.
  - reflexivity.
  - reflexivity.
Defined.

Lemma job_only_progresses_witness :
  ∃ rs d' w',
    run later_calls (out_disp failed_job1.2) world_err = Some (rs, d', w') ∧
    ∃ s',
      snapshots d' !! 1%Z = Some s' ∧
      snapshot_Event s' = snapshot_Event job1_failed_snapshot ∧
      snapshot_Context s' = snapshot_Context job1_failed_snapshot ∧
      actionsToProcess s' `suffix_of` actionsToProcess job1_failed_snapshot.
Proof.
  eexists _, _, _. split; [reflexivity|].
  eapply (job_only_progresses later_calls (out_disp failed_job1.2) world_err
            _ _ _ 1 job1_failed_snapshot).
  - exact failed_job1_wf.
  - by vm_compute.
  - exact failed_job1_snapshot.
  - reflexivity.
Defined.

Lemma registry_ignores_jobs_witness :
  ∃ rs2 d2,
    run (List.filter registry_op history_job1_failed)
      (NewEventDispatcher dyn unit test_world) world0
    = Some (rs2, d2, world0) ∧
    actions d2 = actions (out_disp failed_job1.2).
Proof.
  exact (registry_ignores_jobs history_job1_failed
           (NewEventDispatcher dyn unit test_world) world0 _
           (out_disp failed_job1.2) world_err history_job1_failed_run).
Defined.

(** ** Slices on the fixtures *)

Lemma double_grow_enough : ∀ c n, (n ≤ double_grow c n)%nat.
Proof. intros c n. unfold double_grow. lia. Defined.

Lemma slices_agree_with_lists_witness :
  (∀ c n, (n ≤ double_grow c n)%nat) ∧
  (λ '(rs, sd', w'), (rs, list_dispatcher sd', w'))
    <$> sd_run zeroAction double_grow history_immutability
          (sd_New dyn unit test_world) world0
  = run history_immutability (NewEventDispatcher dyn unit test_world) world0 ∧
  ∀ rs sd w',
    sd_run zeroAction double_grow history_immutability
      (sd_New dyn unit test_world) world0 = Some (rs, sd, w') →
    sd_inv sd.
Proof.
  split; [exact double_grow_enough|].
  exact (slices_agree_with_lists zeroAction double_grow double_grow_enough
           history_immutability world0).
Defined.

Lemma slices_two_actions_inv : sd_inv slices_two_actions.
Proof.
  apply (sd_AddAction_sim zeroAction double_grow double_grow_enough).
  apply (sd_AddAction_sim zeroAction double_grow double_grow_enough).
  apply sd_New_list.
Defined.

Lemma sd_RemoveAction_in_place_witness :
  sd_inv slices_two_actions ∧
  (sd_RemoveAction zeroAction double_grow slices_two_actions actionStraightCheck).1 = None ∧
  sd_actions slices_two_actions = mkSlice 2 0 2 2 ∧
  sd_actions (sd_RemoveAction zeroAction double_grow slices_two_actions
                actionStraightCheck).2 = mkSlice 2 0 1 2 ∧
  sd_next (sd_RemoveAction zeroAction double_grow slices_two_actions
             actionStraightCheck).2 = sd_next slices_two_actions.
Proof.
  split; [exact slices_two_actions_inv|]. split; [reflexivity|].
  split; [reflexivity|]. split; [reflexivity|].
  exact (proj1 (sd_RemoveAction_in_place zeroAction double_grow slices_two_actions
                  actionStraightCheck slices_two_actions_inv eq_refl)).
Defined.
